(** * EPyColl: the sorted-list set and the one-to-one map

    A shallow embedding of [sets.py] (class [SortedListSet]) and of
    [mapping.py] (class [OneToOneMap]), with the properties of their
    specification stated and proved over the embedding.

    Conventions of the embedding:
    - a Python call either returns a value or raises: [result X A];
    - list indices and the modification counter are natural numbers
      (every index the code computes is non-negative);
    - comparison keys are integers, and each [==], [>] or [<=] of the source
      is the decision of the corresponding relation;
    - a function object is named by a handle, so that [self._key !=
      other._key] (identity of function objects) is decidable. *)

From Equations Require Import Equations.
From stdpp Require Import gmap strings list sorting.
From Stdlib Require Import ZArith Lia.

(** ** Results of calls *)

Inductive result (X A : Type) : Type :=
| Ok (a : A)
| Raise (e : X).
Arguments Ok {X A} a.
Arguments Raise {X A} e.

Definition rbind {X A B} (r : result X A) (k : A -> result X B) : result X B :=
  match r with
  | Ok a => k a
  | Raise e => Raise e
  end.

Declare Scope result_scope.
Delimit Scope result_scope with result.
Notation "'let*' x := r 'in' k" := (rbind r (fun x => k))
  (at level 10, x name, r at level 100, k at level 200) : result_scope.
Open Scope result_scope.

(** Matching on a value while keeping the equation with what it came from. *)
Definition inspect {A : Type} (a : A) : {b : A | a = b} := exist _ a eq_refl.

(** [>] on indices is decided like [<]. *)
#[global] Instance nat_gt_dec : RelDecision gt := fun x y => decide (y < x).
#[global] Instance nat_ge_dec : RelDecision ge := fun x y => decide (y <= x).

(** The value of a rich comparison method: a boolean or [NotImplemented]. *)
Inductive pycmp : Type :=
| PyBool (b : bool)
| NotImplemented.

(** [(from_ + to_) >> 1] lies in the interval it halves. *)
Lemma shiftr1_bounds (from_ to_ : nat) :
  from_ < to_ -> from_ <= Nat.shiftr (from_ + to_) 1 < to_.
Proof.
  intros Hlt. change (Nat.shiftr (from_ + to_) 1) with (Nat.div2 (from_ + to_)).
  rewrite Nat.div2_div.
  pose proof (Nat.div_mod_eq (from_ + to_) 2) as Hdm.
  pose proof (Nat.mod_upper_bound (from_ + to_) 2) as Hub.
  lia.
Qed.

(** A list is strongly sorted exactly when every earlier element is
    related to every later one. *)
Lemma StronglySorted_lookup_iff {A : Type} (R : relation A) (l : list A) :
  StronglySorted R l <->
  (forall i j a b, i < j -> l !! i = Some a -> l !! j = Some b -> R a b).
Proof.
  induction l as [|x l IH].
  - split; [|constructor]. intros _ i j a b _ Ha. by rewrite lookup_nil in Ha.
  - rewrite StronglySorted_cons, IH, Forall_forall. split.
    + intros [Hx Hl] i j a b Hij Ha Hb.
      destruct j as [|j]; [lia|]. simpl in Hb. destruct i as [|i]; simpl in Ha.
      * injection Ha as <-. apply Hx. by eapply list_elem_of_lookup_2.
      * apply (Hl i j); [lia|done..].
    + intros Hall. split.
      * intros y Hy. apply list_elem_of_lookup_1 in Hy as [j Hj].
        apply (Hall 0 (S j)); [lia|done..].
      * intros i j a b Hij Ha Hb. apply (Hall (S i) (S j)); [lia|done..].
Qed.

Lemma StronglySorted_delete {A : Type} (R : relation A) (l : list A) (k : nat) :
  StronglySorted R l -> StronglySorted R (delete k l).
Proof.
  rewrite !StronglySorted_lookup_iff. intros Hl i j a b Hij Ha Hb.
  destruct (decide (j < k)).
  - rewrite list_lookup_delete_lt in Ha, Hb by lia. by apply (Hl i j).
  - rewrite list_lookup_delete_ge in Hb by lia.
    destruct (decide (i < k)).
    + rewrite list_lookup_delete_lt in Ha by lia. apply (Hl i (S j)); [lia|done..].
    + rewrite list_lookup_delete_ge in Ha by lia. apply (Hl (S i) (S j)); [lia|done..].
Qed.

(** * sets.py *)
Module Sets.

(** Exceptions raised by [sets.py]. The [ValueError] of the constructor
    carries the two counts of its message. *)
Inductive exn : Type :=
| ValueError (reported actual : nat)
| TypeError
| IndexError
| RuntimeError
| StopIteration.

(** Function objects. [Lambda n] is the object made by the [n]-th evaluation
    of the constructor's [lambda x: x]; [Named n] is a function the caller
    passes in (such as [str.lower]). Two handles are equal exactly when they
    name the same object. *)
Inductive fn : Type :=
| Lambda (oid : nat)
| Named (oid : nat).

#[global] Instance fn_eq_dec : EqDecision fn.
Proof. solve_decision. Defined.

(** The [key] argument of the constructor. *)
Inductive key_arg : Type :=
| KeyNone
| KeyCallable (f : fn)
| KeyNotCallable.

Section SortedListSet.

Context {E : Type} `{EqDecision E}.

(** [elem_ord] orders the elements themselves (what [lambda x: x] exposes to
    the comparisons); [named n] is the body of the function [Named n]. *)
Variable elem_ord : E -> Z.
Variable named : nat -> E -> Z.

Definition call (f : fn) : E -> Z :=
  match f with
  | Lambda _ => elem_ord
  | Named n => named n
  end.

(** The instance attributes of a [SortedListSet]. *)
Record SortedListSet : Type := mkSet {
  _key : fn;
  _list : list E;
  modCount : nat
}.

(** The [iterable] argument of the constructor: absent, an object that
    reports [len() = reported] and then produces [items], or a plain
    iterable producing [items]. *)
Inductive iterable : Type :=
| IterNone
| Sized (reported : nat) (items : list E)
| Unsized (items : list E).

(** *** [_pos]: binary search *)

(** The loop [while from_ < to_] of [_pos], over the key [k] of the query. *)
Equations? pos_loop (key : E -> Z) (l : list E) (k : Z) (from_ to_ : nat)
  : result exn nat by wf (to_ - from_) lt :=
  pos_loop key l k from_ to_ with decide (from_ < to_) => {
    | right _ := Ok from_
    | left _ with l !! Nat.shiftr (from_ + to_) 1 => {
        | None := Raise IndexError
        | Some e with decide (key e = k) => {
            | left _ := Ok (Nat.shiftr (from_ + to_) 1)
            | right _ with decide (key e > k)%Z => {
                | left _ := pos_loop key l k from_ (Nat.shiftr (from_ + to_) 1)
                | right _ := pos_loop key l k (Nat.shiftr (from_ + to_) 1 + 1) to_ } } } }.
Proof.
  all: pose proof (shiftr1_bounds from_ to_ ltac:(assumption)); lia.
Qed.

Definition _pos (s : SortedListSet) (x : E) : result exn nat :=
  pos_loop (call (_key s)) (_list s) (call (_key s) x) 0 (length (_list s)).

(** *** [__contains__], [add], [discard] *)

(** [self._list[i]]: an index past the end raises [IndexError]. *)
Definition getitem (l : list E) (i : nat) : result exn E :=
  match l !! i with
  | Some e => Ok e
  | None => Raise IndexError
  end.

Definition __contains__ (s : SortedListSet) (x : E) : result exn bool :=
  let* at_ := _pos s x in
  if decide (length (_list s) > at_) then
    let* e := getitem (_list s) at_ in
    Ok (bool_decide (e = x))
  else Ok false.

(** [list.insert(at, value)] for an index within [0 .. len]. *)
Definition list_insert_at (at_ : nat) (value : E) (l : list E) : list E :=
  take at_ l ++ value :: drop at_ l.

Definition add (s : SortedListSet) (value : E) : result exn SortedListSet :=
  let* at_ := _pos s value in
  if decide (length (_list s) <= at_) then
    Ok (mkSet (_key s) (_list s ++ [value]) (modCount s))
  else
    let* e := getitem (_list s) at_ in
    if decide (call (_key s) value = call (_key s) e) then
      if decide (e = value) then Ok s
      else Ok (mkSet (_key s) (<[at_ := value]> (_list s)) (modCount s + 1))
    else
      Ok (mkSet (_key s) (list_insert_at at_ value (_list s)) (modCount s + 1)).

Definition discard (s : SortedListSet) (value : E) : result exn SortedListSet :=
  let* at_ := _pos s value in
  if decide (length (_list s) > at_) then
    let* e := getitem (_list s) at_ in
    if decide (e = value) then
      Ok (mkSet (_key s) (delete at_ (_list s)) (modCount s + 1))
    else Ok s
  else Ok s.

Definition __len__ (s : SortedListSet) : nat := length (_list s).

(** *** [__init__] *)

(** The loop that copies a sized iterable into the pre-allocated list
    [[None] * len(iterable)]; a slot holds [None] until it is written.
    Returns the list and the count [i]. *)
Fixpoint fill (buf : list (option E)) (i : nat) (items : list E)
  : result exn (list (option E) * nat) :=
  match items with
  | [] => Ok (buf, i)
  | item :: rest =>
      if decide (i < length buf) then fill (<[i := Some item]> buf) (i + 1) rest
      else Raise IndexError
  end.

(** [list.sort(key = ...)] is a stable sort; it is rendered as a stable
    insertion sort, which computes the same list. *)
Fixpoint sort_insert (key : E -> Z) (x : E) (l : list E) : list E :=
  match l with
  | [] => [x]
  | y :: r => if decide (key x <= key y)%Z then x :: y :: r else y :: sort_insert key x r
  end.

Definition list_sort (key : E -> Z) (l : list E) : list E :=
  foldr (sort_insert key) [] l.

(** The loop that collapses runs of equal keys after the sort. [i] starts
    at 1 and never goes below it, so [i - 1] is the index the source
    reaches with [i -= 1]; [last_] is the variable [last]. *)
Equations? dedup_loop (key : E -> Z) (l : list E) (last_ : E) (i : nat)
  : result exn (list E) by wf (length l - i) lt :=
  dedup_loop key l last_ i with decide (i < length l) => {
    | right _ := Ok l
    | left _ with l !! i => {
        | None := Raise IndexError
        | Some e with decide (key last_ = key e) => {
            | right _ := dedup_loop key l e (i + 1)
            | left _ with delete (i - 1) l !! (i - 1) => {
                | None := Raise IndexError
                | Some last' := dedup_loop key (delete (i - 1) l) last' i } } } }.
Proof.
  - rewrite length_delete; [lia|]. apply lookup_lt_is_Some_2. lia.
  - lia.
Qed.

(** The elements of a fully written buffer. A slot still holding [None]
    would reach the sort, where its key cannot be taken. *)
Fixpoint unwrap (buf : list (option E)) : result exn (list E) :=
  match buf with
  | [] => Ok []
  | Some e :: r => let* r' := unwrap r in Ok (e :: r')
  | None :: _ => Raise TypeError
  end.

(** [lam] names the function object that evaluating [lambda x: x] would
    create in this call. *)
Definition __init__ (lam : nat) (it : iterable) (key : key_arg)
  : result exn SortedListSet :=
  let* key_ :=
    match key with
    | KeyNone => Ok (Lambda lam)
    | KeyCallable f => Ok f
    | KeyNotCallable => Raise TypeError
    end in
  let* list_ :=
    match it with
    | Sized reported items =>
        let* r := fill (replicate reported None) 0 items in
        if decide (length (fst r) > snd r) then Raise (ValueError (length (fst r)) (snd r))
        else unwrap (fst r)
    | Unsized items => Ok items
    | IterNone => Ok []
    end in
  let sorted := list_sort (call key_) list_ in
  let* list_ :=
    match sorted with
    | [] => Ok sorted
    | last :: _ => dedup_loop (call key_) sorted last 1
    end in
  Ok (mkSet key_ list_ 0).

(** *** [iter] and the nested class [Iterator] *)

(** An [Iterator] keeps the counter it saw at creation and the list
    iterator over the slice it copied; its attribute [_set] refers to the
    live set, whose current state the caller hands to [Iterator__next__]. *)
Record Iterator : Type := mkIterator {
  _modCount : nat;
  _iter : list E
}.

(** [l[from_:to_]] for non-negative bounds. *)
Definition slice (l : list E) (from_ to_ : nat) : list E :=
  take (to_ - from_) (drop from_ l).

Definition Iterator__init__ (set_ : SortedListSet) (from_ to_ : nat) : Iterator :=
  mkIterator (modCount set_) (slice (_list set_) from_ to_).

Definition Iterator__next__ (set_ : SortedListSet) (it : Iterator)
  : result exn E * Iterator :=
  if decide (_modCount it ≠ modCount set_) then (Raise RuntimeError, it)
  else
    match _iter it with
    | [] => (Raise StopIteration, it)
    | x :: rest => (Ok x, mkIterator (_modCount it) rest)
    end.

(** [default if bound is None else self._pos(bound)] *)
Definition bound_pos (s : SortedListSet) (bound : option E) (default : nat)
  : result exn nat :=
  match bound with
  | None => Ok default
  | Some x => _pos s x
  end.

Definition iter (s : SortedListSet) (from_ to_ : option E) : result exn Iterator :=
  let* fromIndex := bound_pos s from_ 0 in
  let* toIndex := bound_pos s to_ (length (_list s)) in
  Ok (Iterator__init__ s fromIndex toIndex).

Definition __iter__ (s : SortedListSet) : result exn Iterator := iter s None None.

(** [list(it)]: advance the iterator until it raises [StopIteration],
    while the set stays in the state [set_]. *)
Equations? to_list (set_ : SortedListSet) (it : Iterator)
  : result exn (list E) by wf (length (_iter it)) lt :=
  to_list set_ it with inspect (Iterator__next__ set_ it) => {
    | exist _ (Ok x, it') Hnext with to_list set_ it' => {
        | Ok xs := Ok (x :: xs)
        | Raise e := Raise e }
    | exist _ (Raise e, _) _ :=
        match e with
        | StopIteration => Ok []
        | _ => Raise e
        end }.
Proof.
  unfold Iterator__next__ in Hnext.
  destruct (decide _); [discriminate|].
  destruct (_iter it) as [|y rest]; [discriminate|].
  injection Hnext as _ <-. simpl. lia.
Qed.

(** *** Comparisons *)

(** The right operand of a comparison: another [SortedListSet], some other
    [collections.Set] holding [elems], or an object that is not a set. *)
Inductive operand : Type :=
| OSortedListSet (o : SortedListSet)
| OSet (elems : list E)
| ONotSet.

Definition operand_len (other : operand) : nat :=
  match other with
  | OSortedListSet o => __len__ o
  | OSet elems => length elems
  | ONotSet => 0
  end.

(** [elem in other] *)
Definition operand_contains (other : operand) (elem : E) : result exn bool :=
  match other with
  | OSortedListSet o => __contains__ o elem
  | OSet elems => Ok (bool_decide (elem ∈ elems))
  | ONotSet => Raise TypeError
  end.

(** The loop [for elem in self: if elem not in other: return False]. *)
Fixpoint all_in (other : operand) (elems : list E) : result exn pycmp :=
  match elems with
  | [] => Ok (PyBool true)
  | elem :: rest =>
      let* b := operand_contains other elem in
      if negb b then Ok (PyBool false) else all_in other rest
  end.

(** [collections.Set.__le__], the method of the abstract base class that
    [__le__] and [__eq__] fall back to. *)
Definition Set__le__ (s : SortedListSet) (other : operand) : result exn pycmp :=
  match other with
  | ONotSet => Ok NotImplemented
  | _ =>
      if decide (__len__ s > operand_len other) then Ok (PyBool false)
      else
        let* it := __iter__ s in
        let* elems := to_list s it in
        all_in other elems
  end.

(** The inner [while i < len(other._list)] of [__le__]. *)
Equations? skip_loop (key : E -> Z) (ol : list E) (mykey : Z) (i : nat)
  : result exn nat by wf (length ol - i) lt :=
  skip_loop key ol mykey i with decide (i < length ol) => {
    | right _ := Ok i
    | left _ with ol !! i => {
        | None := Raise IndexError
        | Some e with decide (mykey > key e)%Z => {
            | left _ := skip_loop key ol mykey (i + 1)
            | right _ := Ok i } } }.
Proof. lia. Qed.

(** The loop [for item in self._list] of [__le__], from cursor [i]. *)
Fixpoint scan (key : E -> Z) (ol : list E) (items : list E) (i : nat)
  : result exn pycmp :=
  match items with
  | [] => Ok (PyBool true)
  | item :: rest =>
      let* oi := getitem ol i in
      if decide (item = oi) then scan key ol rest (i + 1)
      else
        let mykey := key item in
        let otherkey := key oi in
        if decide (mykey <= otherkey)%Z then Ok (PyBool false)
        else
          let* i := skip_loop key ol mykey (i + 1) in
          if decide (i >= length ol) then Ok (PyBool false)
          else scan key ol rest i
  end.

(** [log_cheaper len_ olen] stands for the floating-point test
    [2 * len_ * math.log(olen) / self._log2base < olen]. *)
Definition __le__ (log_cheaper : nat -> nat -> bool)
    (s : SortedListSet) (other : operand) : result exn pycmp :=
  match other with
  | OSortedListSet o =>
      let len_ := length (_list s) in
      let olen := length (_list o) in
      if decide (len_ > olen) then Ok (PyBool false)
      else if bool_decide (100 < olen) && log_cheaper len_ olen
              || bool_decide (_key s ≠ _key o)
      then Set__le__ s other
      else scan (call (_key s)) (_list o) (_list s) 0
  | _ => Set__le__ s other
  end.

(** The loop [for i in range(0, len_)] of [__eq__]. *)
Fixpoint eq_loop (l ol : list E) (range : list nat) : result exn pycmp :=
  match range with
  | [] => Ok (PyBool true)
  | i :: rest =>
      let* a := getitem l i in
      let* b := getitem ol i in
      if decide (a ≠ b) then Ok (PyBool false) else eq_loop l ol rest
  end.

Definition __eq__ (s : SortedListSet) (other : operand) : result exn pycmp :=
  match other with
  | OSortedListSet o =>
      if decide (_key s ≠ _key o) then Set__le__ s other
      else
        let len_ := length (_list s) in
        if decide (len_ ≠ length (_list o)) then Ok (PyBool false)
        else eq_loop (_list s) (_list o) (seq 0 len_)
  | _ => Set__le__ s other
  end.

(** *** Reference notions the specification compares the code with *)

(** Brute-force subset test: every element of the left operand is a
    member of the right operand. *)
Definition brute_force_subset (s o : SortedListSet) : bool :=
  forallb (fun x => bool_decide (x ∈ _list o)) (_list s).

(** The elements an operand holds. *)
Definition operand_elems (other : operand) : list E :=
  match other with
  | OSortedListSet o => _list o
  | OSet elems => elems
  | ONotSet => []
  end.

(** Generic set equality: equal sizes and mutual membership. *)
Definition generic_set_equality (s : SortedListSet) (other : operand) : bool :=
  bool_decide (__len__ s = operand_len other)
  && forallb (fun x => bool_decide (x ∈ operand_elems other)) (_list s)
  && forallb (fun x => bool_decide (x ∈ _list s)) (operand_elems other).

(** A set in the state the class maintains: keys strictly ascending. *)
Definition ascending (key : E -> Z) (l : list E) : Prop :=
  StronglySorted (fun a b => key a < key b)%Z l.

Definition well_formed (s : SortedListSet) : Prop :=
  ascending (call (_key s)) (_list s).

(** Keys in non-descending order: the state between the sort and the
    removal of equal keys. *)
Definition non_descending (key : E -> Z) (l : list E) : Prop :=
  StronglySorted (fun a b => key a <= key b)%Z l.

(** Mutations a caller can apply to a set. *)
Inductive op : Type :=
| Add (value : E)
| Discard (value : E).

Definition apply_op (s : SortedListSet) (o : op) : result exn SortedListSet :=
  match o with
  | Add v => add s v
  | Discard v => discard s v
  end.

Fixpoint run (s : SortedListSet) (ops : list op) : result exn SortedListSet :=
  match ops with
  | [] => Ok s
  | o :: rest => let* s' := apply_op s o in run s' rest
  end.

(** ** Properties of the binary search *)

(** Brings the bounds of the midpoint into the context of a loop step. *)
Ltac mid_bounds :=
  match goal with
  | Hlt : ?f < ?t |- _ =>
      lazymatch goal with
      | _ : f <= Nat.shiftr (f + t) 1 < t |- _ => fail
      | _ => pose proof (shiftr1_bounds f t Hlt)
      end
  end.

Lemma rbind_Ok {X A B} (r : result X A) (k : A -> result X B) (b : B) :
  rbind r k = Ok b -> exists a, r = Ok a /\ k a = Ok b.
Proof. destruct r as [a|e]; simpl; [eauto | discriminate]. Qed.

Lemma getitem_Ok (l : list E) (i : nat) (e : E) :
  getitem l i = Ok e <-> l !! i = Some e.
Proof. unfold getitem. destruct (l !! i); split; congruence. Qed.

Lemma getitem_lt (l : list E) (i : nat) :
  i < length l -> exists e, getitem l i = Ok e /\ l !! i = Some e.
Proof.
  intros Hi. destruct (lookup_lt_is_Some_2 l i Hi) as [e He].
  exists e. by rewrite getitem_Ok.
Qed.

Lemma ascending_lookup (key : E -> Z) (l : list E) (i j : nat) (a b : E) :
  ascending key l -> i < j -> l !! i = Some a -> l !! j = Some b ->
  (key a < key b)%Z.
Proof.
  unfold ascending. rewrite StronglySorted_lookup_iff. intros Hs. apply Hs.
Qed.

(** The search never reads outside the list and always returns. *)
Lemma pos_loop_total (key : E -> Z) (l : list E) (k : Z) (from_ to_ : nat) :
  to_ <= length l ->
  exists at_, pos_loop key l k from_ to_ = Ok at_ /\
              (at_ = from_ \/ from_ <= at_ <= to_).
Proof.
  funelim (pos_loop key l k from_ to_); intros Hto; clear Heqcall;
    try mid_bounds.
  - eexists; split; [done|]. lia.
  - apply lookup_ge_None in Heq. lia.
  - eexists; split; [done|]. lia.
  - destruct H as (at_ & -> & Hat); [lia|]. exists at_. split; [done|]. lia.
  - destruct H as (at_ & -> & Hat); [lia|]. exists at_. split; [done|]. lia.
Qed.

(** On an ascending list the search returns the insertion point: the keys
    before it are smaller than the query, the keys from it on are not. *)
Lemma pos_loop_spec (key : E -> Z) (l : list E) (k : Z) (from_ to_ : nat) :
  ascending key l ->
  from_ <= to_ <= length l ->
  (forall j e, j < from_ -> l !! j = Some e -> (key e < k)%Z) ->
  (forall j e, to_ <= j -> l !! j = Some e -> (k < key e)%Z) ->
  exists at_, pos_loop key l k from_ to_ = Ok at_ /\ at_ <= length l /\
    (forall j e, j < at_ -> l !! j = Some e -> (key e < k)%Z) /\
    (forall j e, at_ <= j -> l !! j = Some e -> (k <= key e)%Z).
Proof.
  intros Hasc.
  funelim (pos_loop key l k from_ to_); intros Hto Hlo Hhi; clear Heqcall;
    try mid_bounds.
  - exists from_. split; [done|]. split; [lia|].
    split; [done|]. intros j e Hj He.
      assert (k < key e)%Z; [|lia]. apply (Hhi j); [lia|done].
  - apply lookup_ge_None in Heq. lia.
  - exists (Nat.shiftr (from_ + to_) 1). split; [done|]. split; [lia|]. split.
    + intros j e' Hj He'.
      pose proof (ascending_lookup key l j (Nat.shiftr (from_ + to_) 1) e' e
                    Hasc Hj He' Heq0). lia.
    + intros j e' Hj He'.
      destruct (decide (j = Nat.shiftr (from_ + to_) 1)) as [->|Hne].
      * rewrite Heq0 in He'. injection He' as ->. lia.
      * assert (key e < key e')%Z; [|lia].
        apply (ascending_lookup key l (Nat.shiftr (from_ + to_) 1) j); [done|lia|done..].
  - apply H; [done|lia|done|].
    intros j e' Hj He'.
    destruct (decide (j = Nat.shiftr (from_ + to_) 1)) as [->|Hne].
    + rewrite Heq1 in He'. injection He' as ->. lia.
    + assert (key e < key e')%Z; [|lia].
      apply (ascending_lookup key l (Nat.shiftr (from_ + to_) 1) j); [done|lia|done..].
  - apply H; [done|lia| |done].
    intros j e' Hj He'.
    destruct (decide (j = Nat.shiftr (from_ + to_) 1)) as [->|Hne].
    + rewrite Heq1 in He'. injection He' as ->. lia.
    + assert (key e' < key e)%Z; [|lia].
      apply (ascending_lookup key l j (Nat.shiftr (from_ + to_) 1)); [done|lia|done..].
Qed.

Lemma _pos_total (s : SortedListSet) (x : E) :
  exists at_, _pos s x = Ok at_ /\ at_ <= length (_list s).
Proof.
  unfold _pos.
  destruct (pos_loop_total (call (_key s)) (_list s) (call (_key s) x)
              0 (length (_list s))) as (at_ & Hat & Hb); [done|].
  exists at_. split; [done|lia].
Qed.

Lemma _pos_spec (s : SortedListSet) (x : E) :
  well_formed s ->
  exists at_, _pos s x = Ok at_ /\ at_ <= length (_list s) /\
    (forall j e, j < at_ -> _list s !! j = Some e ->
                 (call (_key s) e < call (_key s) x)%Z) /\
    (forall j e, at_ <= j -> _list s !! j = Some e ->
                 (call (_key s) x <= call (_key s) e)%Z).
Proof.
  intros Hwf. unfold _pos. apply pos_loop_spec; [done|lia| |].
  - intros j e Hj. lia.
  - intros j e Hj He. apply lookup_lt_Some in He. lia.
Qed.

(** An element with the key of the query sits exactly at the position
    the search returns. *)
Lemma _pos_found (s : SortedListSet) (x a : E) (i : nat) :
  well_formed s -> _list s !! i = Some a ->
  call (_key s) a = call (_key s) x ->
  _pos s x = Ok i.
Proof.
  intros Hwf Ha Hk.
  destruct (_pos_spec s x Hwf) as (at_ & Hpos & Hlen & Hlo & Hhi).
  rewrite Hpos. f_equal.
  destruct (lt_eq_lt_dec i at_) as [[Hlt|Heq]|Hgt]; [|done|].
  - specialize (Hlo i a Hlt Ha). lia.
  - destruct (decide (at_ < length (_list s))) as [Hin|Hout].
    + destruct (lookup_lt_is_Some_2 _ _ Hin) as [e He].
      pose proof (Hhi at_ e ltac:(lia) He).
      pose proof (ascending_lookup _ _ at_ i e a Hwf Hgt He Ha). lia.
    + apply lookup_lt_Some in Ha. lia.
Qed.

(** ** [add] and [discard] keep the list ascending *)

Lemma ascending_app (key : E -> Z) (l1 l2 : list E) :
  ascending key (l1 ++ l2) <->
  (forall x1 x2, x1 ∈ l1 -> x2 ∈ l2 -> (key x1 < key x2)%Z) /\
  ascending key l1 /\ ascending key l2.
Proof. apply StronglySorted_app. Qed.

Lemma ascending_take_drop (key : E -> Z) (l : list E) (n : nat) :
  ascending key l -> ascending key (take n l) /\ ascending key (drop n l).
Proof.
  intros Hasc. rewrite <- (take_drop n l) in Hasc.
  by apply ascending_app in Hasc as (_ & ? & ?).
Qed.

Lemma elem_of_drop_lookup (l : list E) (n : nat) (x : E) :
  x ∈ drop n l -> exists j, n <= j /\ l !! j = Some x.
Proof.
  intros Hx. apply list_elem_of_lookup_1 in Hx as [i Hi].
  rewrite lookup_drop in Hi. exists (n + i). split; [lia|done].
Qed.

(** Whether a list is ascending depends on its keys only. *)
Lemma ascending_fmap (key : E -> Z) (l : list E) :
  ascending key l <-> StronglySorted Z.lt (key <$> l).
Proof.
  unfold ascending. induction l as [|x l IH]; simpl.
  - split; constructor.
  - rewrite !StronglySorted_cons, IH, Forall_fmap. done.
Qed.

Lemma ascending_keys (key : E -> Z) (l1 l2 : list E) :
  key <$> l1 = key <$> l2 -> ascending key l1 -> ascending key l2.
Proof. rewrite !ascending_fmap. by intros ->. Qed.

Lemma ascending_delete (key : E -> Z) (l : list E) (i : nat) :
  ascending key l -> ascending key (delete i l).
Proof. apply StronglySorted_delete. Qed.

Lemma add_total (s : SortedListSet) (value : E) :
  exists s', add s value = Ok s' /\ _key s' = _key s.
Proof.
  unfold add. destruct (_pos_total s value) as (at_ & -> & Hat). simpl.
  destruct (decide _) as [?|Hin]; [eauto|].
  destruct (getitem_lt (_list s) at_) as (e & -> & He); [lia|]. simpl.
  repeat destruct (decide _); eauto.
Qed.

Lemma discard_total (s : SortedListSet) (value : E) :
  exists s', discard s value = Ok s' /\ _key s' = _key s.
Proof.
  unfold discard. destruct (_pos_total s value) as (at_ & -> & Hat). simpl.
  destruct (decide _) as [Hin|?]; [|eauto].
  destruct (getitem_lt (_list s) at_) as (e & -> & He); [lia|]. simpl.
  destruct (decide _); eauto.
Qed.

Lemma add_well_formed (s s' : SortedListSet) (value : E) :
  well_formed s -> add s value = Ok s' -> well_formed s'.
Proof.
  intros Hwf. unfold add.
  destruct (_pos_spec s value Hwf) as (at_ & -> & Hlen & Hlo & Hhi). simpl.
  destruct (decide _) as [Hout|Hin].
  - intros [= <-]. unfold well_formed. simpl.
    apply ascending_app. split; [|split; [done|repeat constructor]].
    intros x1 x2 Hx1 Hx2. apply list_elem_of_singleton in Hx2 as ->.
    apply list_elem_of_lookup_1 in Hx1 as [j Hj].
    apply (Hlo j); [|done]. apply lookup_lt_Some in Hj. lia.
  - destruct (getitem_lt (_list s) at_) as (e & -> & He); [lia|]. simpl.
    destruct (decide _) as [Hk|Hk].
    + destruct (decide _) as [_|_]; intros [= <-]; [done|].
      unfold well_formed. simpl. eapply ascending_keys; [|exact Hwf].
      rewrite list_fmap_insert. symmetry. apply list_insert_id.
      rewrite list_lookup_fmap, He. simpl. by rewrite Hk.
    + intros [= <-]. unfold well_formed, list_insert_at. simpl.
      destruct (ascending_take_drop _ _ at_ Hwf) as [Ht Hd].
      assert (forall x, x ∈ drop at_ (_list s) ->
                (call (_key s) value < call (_key s) x)%Z) as Hgt.
      { intros x Hx. apply elem_of_drop_lookup in Hx as (j & Hj & Hx).
        destruct (decide (j = at_)) as [->|Hne].
        - rewrite He in Hx. injection Hx as ->.
          pose proof (Hhi at_ x ltac:(lia) He). lia.
        - pose proof (Hhi at_ e ltac:(lia) He).
          pose proof (ascending_lookup _ _ at_ j e x Hwf ltac:(lia) He Hx). lia. }
      apply ascending_app. split; [|split; [done|]].
      * intros x1 x2 Hx1 Hx2. apply elem_of_take in Hx1 as (j & Hj & Hjlt).
        pose proof (Hlo j x1 Hjlt Hj).
        apply elem_of_cons in Hx2 as [->|Hx2]; [done|].
        pose proof (Hgt x2 Hx2). lia.
      * constructor; [done|]. by apply Forall_forall.
Qed.

Lemma discard_well_formed (s s' : SortedListSet) (value : E) :
  well_formed s -> discard s value = Ok s' -> well_formed s'.
Proof.
  intros Hwf. unfold discard.
  destruct (_pos_total s value) as (at_ & -> & Hlen). simpl.
  destruct (decide _) as [Hin|Hout]; [|by intros [= <-]].
  destruct (getitem_lt (_list s) at_) as (e & -> & He); [lia|]. simpl.
  destruct (decide _); intros [= <-]; [|done].
  unfold well_formed. simpl. by apply ascending_delete.
Qed.

Lemma run_well_formed (ops : list op) (s : SortedListSet) :
  well_formed s ->
  exists s', run s ops = Ok s' /\ well_formed s' /\ _key s' = _key s.
Proof.
  revert s. induction ops as [|o ops IH]; intros s Hwf; simpl; [eauto|].
  assert (exists s1, apply_op s o = Ok s1 /\ well_formed s1 /\ _key s1 = _key s)
    as (s1 & Hs1 & Hwf1 & Hk1).
  { destruct o as [v|v]; simpl.
    - destruct (add_total s v) as (s1 & Hs1 & Hk). exists s1.
      eauto using add_well_formed.
    - destruct (discard_total s v) as (s1 & Hs1 & Hk). exists s1.
      eauto using discard_well_formed. }
  rewrite Hs1. simpl. destruct (IH s1 Hwf1) as (s' & ? & ? & Hk').
  exists s'. rewrite Hk', Hk1. eauto.
Qed.

(** ** The constructor builds an ascending list *)

Lemma sort_insert_elem_of (key : E -> Z) (x y : E) (l : list E) :
  y ∈ sort_insert key x l <-> y = x \/ y ∈ l.
Proof.
  induction l as [|z l IH]; simpl.
  - rewrite list_elem_of_singleton, elem_of_nil. tauto.
  - destruct (decide _); rewrite !elem_of_cons; [tauto|]. rewrite IH. tauto.
Qed.

Lemma sort_insert_sorted (key : E -> Z) (x : E) (l : list E) :
  non_descending key l -> non_descending key (sort_insert key x l).
Proof.
  unfold non_descending. induction l as [|y l IH]; simpl; intros Hl.
  - repeat constructor.
  - apply StronglySorted_cons in Hl as [Hy Hl].
    destruct (decide _) as [Hle|Hgt].
    + constructor; [by constructor|]. constructor; [done|].
      eapply Forall_impl; [exact Hy|]. simpl. intros z Hz. lia.
    + constructor; [by apply IH|].
      apply Forall_forall. intros z Hz.
      apply sort_insert_elem_of in Hz as [->|Hz]; [lia|].
      rewrite Forall_forall in Hy. by apply Hy.
Qed.

Lemma list_sort_sorted (key : E -> Z) (l : list E) :
  non_descending key (list_sort key l).
Proof.
  induction l as [|x l IH]; simpl; [constructor|].
  by apply sort_insert_sorted.
Qed.

(** The loop invariant: the list is non-descending, [last] is the element
    before the cursor, and the part before the cursor is ascending. *)
Lemma dedup_loop_spec (key : E -> Z) (l : list E) (last_ : E) (i : nat) :
  non_descending key l ->
  1 <= i -> l !! (i - 1) = Some last_ ->
  (forall j j' a b, j < j' < i -> l !! j = Some a -> l !! j' = Some b ->
                    (key a < key b)%Z) ->
  exists l', dedup_loop key l last_ i = Ok l' /\ ascending key l'.
Proof.
  funelim (dedup_loop key l last_ i); intros Hnd Hi Hlast Hpre; clear Heqcall.
  - exists l. split; [done|]. apply StronglySorted_lookup_iff.
    intros j j' a b Hj Ha Hb. apply (Hpre j j'); [|done..].
    apply lookup_lt_Some in Hb. lia.
  - apply lookup_ge_None in Heq. lia.
  - apply H; [done|lia| |].
    + by rewrite Nat.add_sub.
    + intros j j' a b Hj Ha Hb.
      destruct (decide (j' < i)); [apply (Hpre j j'); [lia|done..]|].
      assert (j' = i) as -> by lia. rewrite Heq0 in Hb. injection Hb as <-.
      pose proof (proj1 (StronglySorted_lookup_iff _ _) Hnd) as Hle.
      assert (key last_ < key e)%Z as Hlt.
      { pose proof (Hle (i - 1) i last_ e ltac:(lia) Hlast Heq0). simpl in *. lia. }
      destruct (decide (j = i - 1)) as [->|Hne].
      * rewrite Hlast in Ha. by injection Ha as <-.
      * pose proof (Hpre j (i - 1) a last_ ltac:(lia) Ha Hlast). lia.
  - rewrite list_lookup_delete_ge in Heq by lia.
    replace (S (i - 1)) with i in Heq by lia.
    rewrite Heq1 in Heq. injection Heq as <-.
    apply H; [by apply StronglySorted_delete|done| |].
    + rewrite list_lookup_delete_ge by lia.
      by replace (S (i - 1)) with i by lia.
    + intros j j' a b Hj Ha Hb.
      rewrite list_lookup_delete_lt in Ha by lia.
      destruct (decide (j' < i - 1)).
      * rewrite list_lookup_delete_lt in Hb by lia.
        apply (Hpre j j'); [lia|done..].
      * rewrite list_lookup_delete_ge in Hb by lia.
        assert (S j' = i) as Hj' by lia. rewrite Hj', Heq1 in Hb.
        injection Hb as <-.
        pose proof (Hpre j (i - 1) a last_ ltac:(lia) Ha Hlast). lia.
  - apply lookup_ge_None in Heq. rewrite length_delete in Heq; [lia|].
    apply lookup_lt_is_Some_2. lia.
Qed.

Lemma fill_Ok (items : list E) (buf buf' : list (option E)) (i n : nat) :
  i <= length buf ->
  fill buf i items = Ok (buf', n) ->
  length buf' = length buf /\ n = i + length items /\ n <= length buf /\
  (forall j, j < i \/ n <= j -> buf' !! j = buf !! j) /\
  (forall j, i <= j < n -> exists e, buf' !! j = Some (Some e)).
Proof.
  revert buf i. induction items as [|x items IH]; simpl; intros buf i Hi.
  - intros [= <- <-]. repeat split; lia.
  - destruct (decide _) as [Hlt|]; [|discriminate]. intros Hfill.
    apply IH in Hfill as (Hlen & Hn & Hle & Hout & Hin);
      [|rewrite length_insert; lia].
    rewrite length_insert in Hlen, Hle.
    repeat split; try lia.
    + intros j Hj. rewrite Hout by lia. apply list_lookup_insert_ne. lia.
    + intros j Hj. destruct (decide (j = i)) as [->|Hne].
      * rewrite Hout by lia. rewrite list_lookup_insert_eq by lia. eauto.
      * apply Hin. lia.
Qed.

Lemma __init___well_formed (lam : nat) (it : iterable) (key : key_arg)
    (s : SortedListSet) :
  __init__ lam it key = Ok s -> well_formed s /\ modCount s = 0.
Proof.
  unfold __init__. intros Hinit.
  apply rbind_Ok in Hinit as (key_ & _ & Hinit).
  apply rbind_Ok in Hinit as (list_ & _ & Hinit).
  apply rbind_Ok in Hinit as (l' & Hl' & [= <-]).
  split; [|done]. unfold well_formed. simpl.
  pose proof (list_sort_sorted (call key_) list_) as Hnd.
  destruct (list_sort (call key_) list_) as [|x l] eqn:Hsort.
  - injection Hl' as <-. constructor.
  - destruct (dedup_loop_spec (call key_) (x :: l) x 1) as (l2 & Hl2 & Hasc);
      [done|lia|done| |congruence].
    intros j j' a b Hj. lia.
Qed.

(** *** What the constructor does with a sized iterable *)

Lemma fill_fits (items : list E) (buf : list (option E)) (i : nat) :
  i + length items <= length buf ->
  exists buf', fill buf i items = Ok (buf', i + length items).
Proof.
  revert buf i. induction items as [|x items IH]; simpl; intros buf i Hle.
  - exists buf. by rewrite Nat.add_0_r.
  - destruct (decide _); [|lia].
    destruct (IH (<[i := Some x]> buf) (i + 1)) as [buf' ->];
      [rewrite length_insert; lia|].
    exists buf'. do 2 f_equal. lia.
Qed.

Lemma fill_overflow (items : list E) (buf : list (option E)) (i : nat) :
  i <= length buf -> length buf < i + length items ->
  fill buf i items = Raise IndexError.
Proof.
  revert buf i. induction items as [|x items IH]; simpl; intros buf i Hi Hlt.
  - lia.
  - destruct (decide _); [|done].
    apply IH; rewrite length_insert; lia.
Qed.

Lemma unwrap_full (buf : list (option E)) :
  (forall j, j < length buf -> exists e, buf !! j = Some (Some e)) ->
  exists l, unwrap buf = Ok l.
Proof.
  induction buf as [|o buf IH]; simpl; intros Hall; [eauto|].
  destruct (Hall 0 ltac:(lia)) as [e [= ->]].
  destruct IH as [l ->]; [|simpl; eauto].
  intros j Hj. apply (Hall (S j)). lia.
Qed.

(** Fewer elements than reported: the [ValueError] with both counts. *)
Lemma __init___fewer (lam : nat) (reported : nat) (items : list E) (key : key_arg) :
  key <> KeyNotCallable -> length items < reported ->
  __init__ lam (Sized reported items) key
  = Raise (ValueError reported (length items)).
Proof.
  intros Hkey Hlt. unfold __init__.
  destruct key; [| |done]; simpl.
  all: destruct (fill_fits items (replicate reported None) 0) as [buf' Hfill];
    [rewrite length_replicate; lia|].
  all: rewrite Hfill; simpl.
  all: apply fill_Ok in Hfill as (Hlen & _); [|lia].
  all: rewrite length_replicate in Hlen; rewrite Hlen.
  all: destruct (decide _); [done|lia].
Qed.

(** More elements than reported: the write past the end of the
    pre-allocated list raises [IndexError]. *)
Lemma __init___more (lam : nat) (reported : nat) (items : list E) (key : key_arg) :
  key <> KeyNotCallable -> reported < length items ->
  __init__ lam (Sized reported items) key = Raise IndexError.
Proof.
  intros Hkey Hlt. unfold __init__.
  destruct key; [| |done]; simpl.
  all: rewrite fill_overflow; [done|lia|rewrite length_replicate; lia].
Qed.

(** The constructor succeeds on every iterable that produces as many
    elements as it reports, with a callable key. *)
Lemma __init___total (lam : nat) (it : iterable) (key : key_arg) :
  key <> KeyNotCallable ->
  (forall reported items, it = Sized reported items -> reported = length items) ->
  exists s, __init__ lam it key = Ok s.
Proof.
  intros Hkey Hsized. unfold __init__.
  assert (exists key_, match key with
                       | KeyNone => Ok (Lambda lam)
                       | KeyCallable f => Ok f
                       | KeyNotCallable => Raise TypeError
                       end = (Ok key_ : result exn fn)) as [key_ ->].
  { destruct key; eauto. done. }
  simpl.
  assert (exists list_, match it with
            | Sized reported items =>
                let* r := fill (replicate reported None) 0 items in
                if decide (length (fst r) > snd r)
                then Raise (ValueError (length (fst r)) (snd r))
                else unwrap (fst r)
            | Unsized items => Ok items
            | IterNone => Ok []
            end = Ok list_) as [list_ ->].
  { destruct it as [|reported items|items]; [eauto| |eauto].
    specialize (Hsized reported items eq_refl). subst reported.
    destruct (fill_fits items (replicate (length items) None) 0) as [buf' Hfill];
      [rewrite length_replicate; lia|].
    rewrite Hfill. simpl.
    apply fill_Ok in Hfill as (Hlen & _ & _ & _ & Hin); [|lia].
    rewrite length_replicate in Hlen.
    destruct (decide _); [lia|].
    apply unwrap_full. intros j Hj. apply Hin. lia. }
  simpl.
  pose proof (list_sort_sorted (call key_) list_) as Hnd.
  destruct (list_sort (call key_) list_) as [|x l]; simpl; [eauto|].
  destruct (dedup_loop_spec (call key_) (x :: l) x 1) as (l2 & -> & _);
    [done|lia|done| |simpl; eauto].
  intros j j' a b Hj. lia.
Qed.

(** ** Iteration *)

(** One round of [list(it)], as the loop reads. *)
Lemma to_list_step (set_ : SortedListSet) (it : Iterator) :
  to_list set_ it =
  match Iterator__next__ set_ it with
  | (Ok x, it') => let* xs := to_list set_ it' in Ok (x :: xs)
  | (Raise StopIteration, _) => Ok []
  | (Raise e, _) => Raise e
  end.
Proof.
  funelim (to_list set_ it); clear Heqcall;
    match goal with
    | Hn : Iterator__next__ _ _ = _ |- _ => rewrite Hn
    end.
  - by destruct e.
  - by rewrite Heq.
  - by rewrite Heq.
Qed.

Lemma to_list_fresh (set_ : SortedListSet) (rest : list E) :
  to_list set_ (mkIterator (modCount set_) rest) = Ok rest.
Proof.
  induction rest as [|x rest IH]; rewrite to_list_step;
    unfold Iterator__next__; simpl;
    destruct (decide _) as [Hne|_]; try done; simpl.
  rewrite IH. done.
Qed.

(** An iterator made before a change of the counter fails at once. *)
Lemma to_list_stale (set_ : SortedListSet) (it : Iterator) :
  _modCount it <> modCount set_ -> to_list set_ it = Raise RuntimeError.
Proof.
  intros Hne. rewrite to_list_step. unfold Iterator__next__.
  by destruct (decide _).
Qed.

Lemma to_list___iter__ (s : SortedListSet) :
  exists it, __iter__ s = Ok it /\ to_list s it = Ok (_list s).
Proof.
  unfold __iter__, iter. simpl. eexists. split; [done|].
  unfold Iterator__init__, slice. rewrite drop_0, Nat.sub_0_r, firstn_all.
  apply to_list_fresh.
Qed.

Lemma iter_total (s : SortedListSet) (from_ to_ : option E) :
  exists it, iter s from_ to_ = Ok it.
Proof.
  unfold iter.
  assert (forall b d, exists n, bound_pos s b d = Ok n) as Hb.
  { intros [x|] d; simpl; [|eauto].
    destruct (_pos_total s x) as (n & Hn & _). eauto. }
  destruct (Hb from_ 0) as [fi ->]. simpl.
  destruct (Hb to_ (length (_list s))) as [ti ->]. simpl. eauto.
Qed.

Lemma ascending_NoDup (key : E -> Z) (l : list E) :
  ascending key l -> NoDup (key <$> l).
Proof.
  rewrite ascending_fmap. generalize (key <$> l). intros ks Hs.
  induction Hs as [|k ks Hs IH Hk]; constructor; [|done].
  intros Hin. rewrite Forall_forall in Hk. specialize (Hk k Hin). lia.
Qed.

Lemma __contains___true (s : SortedListSet) (x : E) :
  __contains__ s x = Ok true -> exists i, _list s !! i = Some x.
Proof.
  unfold __contains__. intros Hc.
  apply rbind_Ok in Hc as (at_ & _ & Hc).
  destruct (decide _); [|discriminate].
  apply rbind_Ok in Hc as (e & He & [= Heq]).
  apply bool_decide_eq_true in Heq as ->. apply getitem_Ok in He. eauto.
Qed.

(** Membership, once the position of the key is known. *)
Lemma __contains___at (s : SortedListSet) (x e : E) (i : nat) :
  well_formed s -> _list s !! i = Some e ->
  call (_key s) e = call (_key s) x ->
  __contains__ s x = Ok (bool_decide (e = x)).
Proof.
  intros Hwf He Hk. unfold __contains__.
  rewrite (_pos_found s x e i Hwf He Hk). simpl.
  pose proof (lookup_lt_Some _ _ _ He).
  destruct (decide _); [|lia].
  apply getitem_Ok in He. by rewrite He.
Qed.

(** ** The counter and live iterators *)

(** The branch [len(self._list) <= at] of [add]: the value is appended and
    the counter is the one before the call. *)
Lemma add_append (s : SortedListSet) (value : E) (at_ : nat) :
  _pos s value = Ok at_ -> length (_list s) <= at_ ->
  add s value = Ok (mkSet (_key s) (_list s ++ [value]) (modCount s)).
Proof.
  intros Hpos Hlen. unfold add. rewrite Hpos. simpl.
  by destruct (decide _).
Qed.

(** The other branches either return the set as it was or raise the
    counter by one. *)
Lemma add_inside (s s' : SortedListSet) (value : E) (at_ : nat) :
  _pos s value = Ok at_ -> at_ < length (_list s) ->
  add s value = Ok s' -> s' = s \/ modCount s' = modCount s + 1.
Proof.
  intros Hpos Hlen. unfold add. rewrite Hpos. simpl.
  destruct (decide _); [lia|].
  destruct (getitem_lt (_list s) at_ Hlen) as (e & -> & _). simpl.
  repeat destruct (decide _); intros [= <-]; auto.
Qed.

(** An iterator whose set has moved its counter raises on its next
    advance. *)
Lemma iterator_detects (s s' : SortedListSet) (from_ to_ : option E)
    (it : Iterator) :
  iter s from_ to_ = Ok it -> modCount s' <> modCount s ->
  Iterator__next__ s' it = (Raise RuntimeError, it).
Proof.
  unfold iter. intros Hiter Hne.
  apply rbind_Ok in Hiter as (fi & _ & Hiter).
  apply rbind_Ok in Hiter as (ti & _ & [= <-]).
  unfold Iterator__next__, Iterator__init__. simpl.
  destruct (decide _) as [|Hsame]; [done|].
  exfalso. apply Hsame. congruence.
Qed.

(** The fallback of [__eq__] is the subset test of the base class. *)
Lemma __eq___fallback (s o : SortedListSet) :
  _key s <> _key o ->
  __eq__ s (OSortedListSet o) = Set__le__ s (OSortedListSet o).
Proof. intros Hne. unfold __eq__. by destruct (decide _). Qed.

(** ** The claims about [SortedListSet] that hold *)

(** C7. A set built by the constructor and then changed by any sequence of
    [add] and [discard] calls iterates, from start to end, over its backing
    list; the keys of that list are strictly ascending, no key occurs twice,
    and the length of the list is the length the set reports. *)
Theorem order_invariant (lam : nat) (it : iterable) (key : key_arg)
    (s : SortedListSet) (ops : list op) :
  __init__ lam it key = Ok s ->
  exists s' itr,
    run s ops = Ok s' /\
    __iter__ s' = Ok itr /\ to_list s' itr = Ok (_list s') /\
    ascending (call (_key s')) (_list s') /\
    NoDup (call (_key s') <$> _list s') /\
    length (_list s') = __len__ s'.
Proof.
  intros Hinit. apply __init___well_formed in Hinit as [Hwf _].
  destruct (run_well_formed ops s Hwf) as (s' & Hrun & Hwf' & _).
  destruct (to_list___iter__ s') as (itr & Hit & Hlist).
  exists s', itr. repeat split; try done.
  by apply ascending_NoDup.
Qed.

(** The replacement of an element by another with the same key, on any
    set whose list is ascending. *)
Lemma add_same_key_well_formed (s : SortedListSet) (a b : E) :
  well_formed s ->
  __contains__ s a = Ok true ->
  call (_key s) a = call (_key s) b ->
  (b = a -> add s b = Ok s) /\
  (b <> a ->
   exists s', add s b = Ok s' /\
     __len__ s' = __len__ s /\
     __contains__ s' b = Ok true /\
     __contains__ s' a = Ok false /\
     modCount s' = modCount s + 1).
Proof.
  intros Hwf Hin Hk. apply __contains___true in Hin as [i Hi].
  pose proof (lookup_lt_Some _ _ _ Hi) as Hlt.
  assert (add s b =
          if decide (a = b) then Ok s
          else Ok (mkSet (_key s) (<[i := b]> (_list s)) (modCount s + 1)))
    as Hadd.
  { unfold add. rewrite (_pos_found s b a i Hwf Hi Hk). simpl.
    destruct (decide (length (_list s) <= i)); [lia|].
    apply getitem_Ok in Hi. rewrite Hi. simpl.
    destruct (decide (call (_key s) b = call (_key s) a)); [done|congruence]. }
  split.
  - intros ->. rewrite Hadd. by destruct (decide _).
  - intros Hne. rewrite Hadd. destruct (decide (a = b)) as [?|_]; [congruence|].
    eexists. split; [done|].
    assert (well_formed (mkSet (_key s) (<[i := b]> (_list s)) (modCount s + 1)))
      as Hwf'.
    { eapply add_well_formed; [exact Hwf|]. rewrite Hadd.
      destruct (decide (a = b)); [congruence|done]. }
    assert (<[i := b]> (_list s) !! i = Some b) as Hb
      by (by apply list_lookup_insert_eq).
    unfold __len__. simpl. rewrite length_insert. split; [done|]. split; [|split].
    + rewrite (__contains___at _ b b i Hwf' Hb eq_refl).
      by rewrite bool_decide_eq_true_2.
    + rewrite (__contains___at _ a b i Hwf' Hb); [|simpl; congruence].
      by rewrite bool_decide_eq_false_2.
    + done.
Qed.

(** C8. On a set [s] reached from the constructor by [add] and [discard]
    calls, when [a in s] and [b] has the key of [a]: adding [b] equal to [a]
    returns the set as it was, contents and counter; adding [b] different
    from [a] keeps the length, makes [b] a member and [a] not a member, and
    raises the counter by one. *)
Theorem add_same_key (lam : nat) (it : iterable) (key : key_arg)
    (ops : list op) (s0 s : SortedListSet) (a b : E) :
  __init__ lam it key = Ok s0 ->
  run s0 ops = Ok s ->
  __contains__ s a = Ok true ->
  call (_key s) a = call (_key s) b ->
  (b = a -> add s b = Ok s) /\
  (b <> a ->
   exists s', add s b = Ok s' /\
     __len__ s' = __len__ s /\
     __contains__ s' b = Ok true /\
     __contains__ s' a = Ok false /\
     modCount s' = modCount s + 1).
Proof.
  intros Hinit Hrun. apply __init___well_formed in Hinit as [Hwf0 _].
  destruct (run_well_formed ops s0 Hwf0) as (s1 & Hrun1 & Hwf & _).
  rewrite Hrun in Hrun1. injection Hrun1 as <-.
  by apply add_same_key_well_formed.
Qed.

(** C10. When the position computed for [from_] is not before the position
    computed for [to_], [iter] returns an iterator whose first advance
    raises [StopIteration]: it yields no element. *)
Theorem iter_empty_range (s : SortedListSet) (from_ to_ : option E)
    (fromIndex toIndex : nat) :
  bound_pos s from_ 0 = Ok fromIndex ->
  bound_pos s to_ (length (_list s)) = Ok toIndex ->
  fromIndex >= toIndex ->
  exists it, iter s from_ to_ = Ok it /\
    Iterator__next__ s it = (Raise StopIteration, it) /\
    to_list s it = Ok [].
Proof.
  intros Hfrom Hto Hge. unfold iter. rewrite Hfrom, Hto. simpl.
  eexists. split; [done|].
  unfold Iterator__init__, slice.
  replace (toIndex - fromIndex) with 0 by lia. rewrite take_0.
  split; [|apply to_list_fresh].
  unfold Iterator__next__. simpl. by destruct (decide _).
Qed.

(** ** Further properties of [SortedListSet] *)

(** *** Membership *)

Lemma ascending_key_inj (key : E -> Z) (l : list E) (a b : E) :
  ascending key l -> a ∈ l -> b ∈ l -> key a = key b -> a = b.
Proof.
  intros Hasc Ha Hb Hk.
  apply list_elem_of_lookup_1 in Ha as [i Hi].
  apply list_elem_of_lookup_1 in Hb as [j Hj].
  destruct (lt_eq_lt_dec i j) as [[Hlt|Heq]|Hgt].
  - pose proof (ascending_lookup key l i j a b Hasc Hlt Hi Hj). lia.
  - subst j. congruence.
  - pose proof (ascending_lookup key l j i b a Hasc Hgt Hj Hi). lia.
Qed.

Lemma ascending_list_NoDup (key : E -> Z) (l : list E) :
  ascending key l -> NoDup l.
Proof.
  intros Hasc. apply (NoDup_fmap_1 key). by apply ascending_NoDup.
Qed.

Lemma __contains___elem_of (s : SortedListSet) (x : E) :
  well_formed s -> __contains__ s x = Ok (bool_decide (x ∈ _list s)).
Proof.
  intros Hwf. unfold __contains__.
  destruct (_pos_spec s x Hwf) as (at_ & -> & Hlen & Hlo & Hhi). simpl.
  assert (forall j, _list s !! j = Some x -> j = at_) as Hat.
  { intros j Hj. destruct (lt_eq_lt_dec j at_) as [[Hlt|Heq]|Hgt]; [|done|].
    - pose proof (Hlo j x Hlt Hj). lia.
    - destruct (_list s !! at_) as [e|] eqn:He.
      + pose proof (Hhi at_ e ltac:(lia) He).
        pose proof (ascending_lookup _ _ at_ j e x Hwf Hgt He Hj). lia.
      + apply lookup_ge_None in He. apply lookup_lt_Some in Hj. lia. }
  destruct (decide _) as [Hin|Hout].
  - destruct (getitem_lt (_list s) at_ Hin) as (e & -> & He). simpl. f_equal.
    destruct (decide (e = x)) as [->|Hne].
    + rewrite !bool_decide_eq_true_2; [done|by eapply list_elem_of_lookup_2|done].
    + rewrite !bool_decide_eq_false_2; [done| |done].
      intros Hx. apply list_elem_of_lookup_1 in Hx as [j Hj].
      rewrite (Hat j Hj) in Hj. congruence.
  - f_equal. symmetry. apply bool_decide_eq_false_2.
    intros Hx. apply list_elem_of_lookup_1 in Hx as [j Hj].
    pose proof (Hat j Hj). apply lookup_lt_Some in Hj. lia.
Qed.

(** The elements of the list [add] leaves. *)
Lemma add_elem_of (s s' : SortedListSet) (value y : E) :
  well_formed s -> add s value = Ok s' ->
  y ∈ _list s' <->
  y = value \/ (y ∈ _list s /\ call (_key s) y <> call (_key s) value).
Proof.
  intros Hwf. unfold add.
  destruct (_pos_spec s value Hwf) as (at_ & -> & Hlen & Hlo & Hhi). simpl.
  destruct (decide _) as [Hout|Hin].
  - intros [= <-]. simpl. rewrite elem_of_app, list_elem_of_singleton.
    split; [|tauto]. intros [Hy|Hy]; [|by left]. right. split; [done|].
    apply list_elem_of_lookup_1 in Hy as [j Hj].
    pose proof (lookup_lt_Some _ _ _ Hj).
    pose proof (Hlo j y ltac:(lia) Hj). lia.
  - destruct (getitem_lt (_list s) at_) as (e & -> & He); [lia|]. simpl.
    pose proof (list_elem_of_lookup_2 _ _ _ He) as Hein.
    destruct (decide _) as [Hk|Hk].
    + assert (forall z, z ∈ _list s ->
                call (_key s) z = call (_key s) value -> z = e) as Huniq.
      { intros z Hz Hkz. apply (ascending_key_inj (call (_key s)) (_list s));
          [done..|congruence]. }
      destruct (decide _) as [->|Hne]; intros [= <-]; simpl.
      * split; [|intros [->|[? _]]; done].
        intros Hy. destruct (decide (y = value)); [by left|right].
        split; [done|]. intros Hky. by apply Huniq in Hky.
      * rewrite insert_take_drop by lia.
        rewrite <- (take_drop_middle (_list s) at_ e He) at 3.
        rewrite !elem_of_app, !elem_of_cons.
        assert (forall z, z ∈ take at_ (_list s) \/ z ∈ drop (S at_) (_list s) ->
                  call (_key s) z <> call (_key s) value) as Hother.
        { intros z Hz Hkz.
          assert (z ∈ _list s) as Hzin.
          { rewrite <- (take_drop_middle (_list s) at_ e He).
            rewrite elem_of_app, elem_of_cons. tauto. }
          pose proof (Huniq z Hzin Hkz) as ->.
          pose proof (ascending_list_NoDup _ _ Hwf) as Hnd.
          rewrite <- (take_drop_middle (_list s) at_ e He) in Hnd.
          apply NoDup_app in Hnd as (_ & Hnd1 & Hnd2).
          apply NoDup_cons in Hnd2 as [Hnd2 _].
          destruct Hz as [Hz|Hz]; [|done].
          apply (Hnd1 e Hz). by left. }
        split.
        -- intros [Hy|[->|Hy]]; [right|by left|right]; split; auto.
        -- intros [->|[[Hy|[->|Hy]] Hky]]; auto. by rewrite Hk in Hky.
    + intros [= <-]. unfold list_insert_at. simpl.
      rewrite <- (take_drop at_ (_list s)) at 3.
      rewrite !elem_of_app, !elem_of_cons.
      split; [|tauto]. intros [Hy|[->|Hy]]; [right|by left|right]; split; auto.
      * apply elem_of_take in Hy as (j & Hj & Hjlt).
        pose proof (Hlo j y Hjlt Hj). lia.
      * apply elem_of_drop_lookup in Hy as (j & Hj & Hy).
        destruct (decide (j = at_)) as [->|Hne]; [congruence|].
        pose proof (Hhi at_ e ltac:(lia) He).
        pose proof (ascending_lookup _ _ at_ j e y Hwf ltac:(lia) He Hy). lia.
Qed.


(** *** What [discard] does *)

Lemma discard_absent (s : SortedListSet) (value : E) :
  value ∉ _list s -> discard s value = Ok s.
Proof.
  intros Hout. unfold discard.
  destruct (_pos_total s value) as (at_ & -> & Hlen). simpl.
  destruct (decide _) as [Hin|]; [|done].
  destruct (getitem_lt (_list s) at_ Hin) as (e & -> & He). simpl.
  destruct (decide _) as [->|]; [|done].
  exfalso. apply Hout. by eapply list_elem_of_lookup_2.
Qed.

Lemma discard_present (s : SortedListSet) (value : E) (i : nat) :
  well_formed s -> _list s !! i = Some value ->
  discard s value = Ok (mkSet (_key s) (delete i (_list s)) (modCount s + 1)).
Proof.
  intros Hwf Hi. unfold discard.
  rewrite (_pos_found s value value i Hwf Hi eq_refl). simpl.
  pose proof (lookup_lt_Some _ _ _ Hi).
  destruct (decide _); [|lia].
  apply getitem_Ok in Hi. rewrite Hi. simpl. by destruct (decide _).
Qed.

Lemma discard_elem_of (s s' : SortedListSet) (value y : E) :
  well_formed s -> discard s value = Ok s' ->
  y ∈ _list s' <-> y ∈ _list s /\ y <> value.
Proof.
  intros Hwf. destruct (decide (value ∈ _list s)) as [Hin|Hout].
  - apply list_elem_of_lookup_1 in Hin as [i Hi].
    rewrite (discard_present s value i Hwf Hi). intros [= <-]. simpl.
    pose proof (ascending_list_NoDup _ _ Hwf) as Hnd.
    rewrite <- (take_drop_middle (_list s) i value Hi) in Hnd |- * at 2.
    rewrite delete_take_drop.
    apply NoDup_app in Hnd as (Hnd1 & Hnd2 & Hnd3).
    apply NoDup_cons in Hnd3 as [Hnd3 _].
    rewrite !elem_of_app, elem_of_cons. split.
    + intros [Hy|Hy]; (split; [tauto|]); intros ->; [|done].
      apply (Hnd2 value Hy). by left.
    + intros [[Hy|[->|Hy]] Hne]; tauto.
  - rewrite (discard_absent s value Hout). intros [= <-].
    split; [|tauto]. intros Hy. split; [done|]. by intros ->.
Qed.

(** *** How [add] changes the length *)

Lemma add_length (s s' : SortedListSet) (value : E) :
  well_formed s -> add s value = Ok s' ->
  length (_list s') =
  if decide (Exists (fun y => call (_key s) y = call (_key s) value) (_list s))
  then length (_list s) else S (length (_list s)).
Proof.
  intros Hwf. unfold add.
  destruct (_pos_spec s value Hwf) as (at_ & -> & Hlen & Hlo & Hhi). simpl.
  destruct (decide (length _ <= _)) as [Hout|Hin].
  - intros [= <-]. simpl. rewrite length_app. simpl.
    destruct (decide _) as [Hex|_]; [|lia].
    apply Exists_exists in Hex as (y & Hy & Hk).
    apply list_elem_of_lookup_1 in Hy as [j Hj].
    pose proof (lookup_lt_Some _ _ _ Hj).
    pose proof (Hlo j y ltac:(lia) Hj). lia.
  - destruct (getitem_lt (_list s) at_) as (e & -> & He); [lia|]. simpl.
    destruct (decide (call _ value = call _ e)) as [Hk|Hk].
    + assert (Exists (fun y => call (_key s) y = call (_key s) value) (_list s))
        as Hex.
      { apply Exists_exists. exists e. split; [|done].
        by eapply list_elem_of_lookup_2. }
      destruct (decide (Exists _ _)); [|done].
      destruct (decide (e = value)); intros [= <-]; simpl; [done|].
      by rewrite length_insert.
    + intros [= <-]. unfold list_insert_at. simpl.
      rewrite length_app. simpl. rewrite length_take, length_drop.
      destruct (decide _) as [Hex|_]; [|lia].
      apply Exists_exists in Hex as (y & Hy & Hky).
      apply list_elem_of_lookup_1 in Hy as [j Hj].
      destruct (lt_eq_lt_dec j at_) as [[Hlt|Heq]|Hgt].
      * pose proof (Hlo j y Hlt Hj). lia.
      * subst j. congruence.
      * pose proof (Hhi at_ e ltac:(lia) He).
        pose proof (ascending_lookup _ _ at_ j e y Hwf Hgt He Hj). lia.
Qed.


(** Two ascending lists with the same elements are the same list. *)
Lemma ascending_ext (key : E -> Z) (l1 l2 : list E) :
  ascending key l1 -> ascending key l2 ->
  (forall y, y ∈ l1 <-> y ∈ l2) -> l1 = l2.
Proof.
  intros H1 H2 Hext.
  apply (StronglySorted_unique_strong (fun a b => key a < key b)%Z); [|done..|].
  - intros x1 x2 _ _ Hlt Hgt. lia.
  - apply NoDup_Permutation; [by eapply ascending_list_NoDup..|done].
Qed.

(** *** Properties of the operations on a set in ascending order *)

(** X1. On a set whose list is in ascending key order, [_pos] returns an
    index within [0 .. len]; the elements before that index are exactly
    those with a key smaller than the key of the query. *)
Theorem _pos_insertion_point (s : SortedListSet) (x : E) :
  well_formed s ->
  exists at_, _pos s x = Ok at_ /\ at_ <= length (_list s) /\
    forall j e, _list s !! j = Some e ->
      (j < at_ <-> (call (_key s) e < call (_key s) x)%Z).
Proof.
  intros Hwf. destruct (_pos_spec s x Hwf) as (at_ & Hpos & Hlen & Hlo & Hhi).
  exists at_. split; [done|]. split; [done|]. intros j e Hj. split.
  - intros Hlt. by apply (Hlo j).
  - intros Hk. destruct (decide (j < at_)); [done|].
    pose proof (Hhi j e ltac:(lia) Hj). lia.
Qed.

(** X2. On such a set, [x in s] is [True] exactly when [x] is an element of
    the backing list: the binary search misses no element and an element
    with the same key that is not equal to [x] does not count. *)
Theorem __contains___is_membership (s : SortedListSet) (x : E) :
  well_formed s ->
  __contains__ s x = Ok (bool_decide (x ∈ _list s)).
Proof. apply __contains___elem_of. Qed.

(** X3. [add(value)] returns; afterwards [value] is a member, every former
    member with another key is still a member, and nothing else is. *)
Theorem add_members (s : SortedListSet) (value : E) :
  well_formed s ->
  exists s', add s value = Ok s' /\
    forall y, __contains__ s' y = Ok true <->
      y = value \/
      (__contains__ s y = Ok true /\ call (_key s) y <> call (_key s) value).
Proof.
  intros Hwf. destruct (add_total s value) as (s' & Hadd & Hkey).
  exists s'. split; [done|]. intros y.
  pose proof (add_well_formed s s' value Hwf Hadd) as Hwf'.
  rewrite (__contains___elem_of s' y Hwf'), (__contains___elem_of s y Hwf).
  assert (forall P `{Decision P}, Ok (bool_decide P) = (Ok true : result exn bool) <-> P)
    as Hb.
  { intros P ?. split.
    - intros [= Heq]. by apply bool_decide_eq_true in Heq.
    - intros HP. by rewrite bool_decide_eq_true_2. }
  rewrite !Hb. by apply add_elem_of.
Qed.

(** X4. [add(value)] leaves the length as it is when some element has the
    key of [value], and raises it by one otherwise. *)
Theorem add_len (s s' : SortedListSet) (value : E) :
  well_formed s -> add s value = Ok s' ->
  ((exists y, y ∈ _list s /\ call (_key s) y = call (_key s) value) ->
   __len__ s' = __len__ s) /\
  ((forall y, y ∈ _list s -> call (_key s) y <> call (_key s) value) ->
   __len__ s' = __len__ s + 1).
Proof.
  intros Hwf Hadd. unfold __len__. rewrite (add_length s s' value Hwf Hadd).
  split.
  - intros (y & Hy & Hk). destruct (decide _) as [_|Hno]; [done|].
    exfalso. apply Hno, Exists_exists. eauto.
  - intros Hall. destruct (decide _) as [Hex|_]; [|lia].
    apply Exists_exists in Hex as (y & Hy & Hk). by apply Hall in Hk.
Qed.

(** X5. [discard(value)] returns; afterwards the members are the former
    members other than [value]. When [value] was a member the length drops
    by one and the counter grows by one; when it was not, the set is
    returned as it was. *)
Theorem discard_members (s : SortedListSet) (value : E) :
  well_formed s ->
  exists s', discard s value = Ok s' /\
    (forall y, __contains__ s' y = Ok true <->
               __contains__ s y = Ok true /\ y <> value) /\
    (__contains__ s value = Ok true ->
     __len__ s' + 1 = __len__ s /\ modCount s' = modCount s + 1) /\
    (__contains__ s value = Ok false -> s' = s).
Proof.
  intros Hwf. destruct (discard_total s value) as (s' & Hdis & Hkey).
  exists s'. split; [done|].
  pose proof (discard_well_formed s s' value Hwf Hdis) as Hwf'.
  assert (forall P `{Decision P}, Ok (bool_decide P) = (Ok true : result exn bool) <-> P)
    as Hb.
  { intros P ?. split.
    - intros [= Heq]. by apply bool_decide_eq_true in Heq.
    - intros HP. by rewrite bool_decide_eq_true_2. }
  split; [|split].
  - intros y.
    rewrite (__contains___elem_of s' y Hwf'), (__contains___elem_of s y Hwf).
    rewrite !Hb. by apply discard_elem_of.
  - rewrite (__contains___elem_of s value Hwf), Hb. intros Hin.
    apply list_elem_of_lookup_1 in Hin as [i Hi].
    rewrite (discard_present s value i Hwf Hi) in Hdis. injection Hdis as <-.
    unfold __len__. simpl. pose proof (lookup_lt_Some _ _ _ Hi).
    rewrite length_delete by eauto. lia.
  - rewrite (__contains___elem_of s value Hwf). intros [= Hout].
    apply bool_decide_eq_false in Hout.
    rewrite (discard_absent s value Hout) in Hdis. by injection Hdis.
Qed.

(** X6. Adding a value a second time changes nothing: the second [add]
    returns the set the first one left, counter included. *)
Theorem add_idempotent (s s' : SortedListSet) (value : E) :
  well_formed s -> add s value = Ok s' -> add s' value = Ok s'.
Proof.
  intros Hwf Hadd.
  pose proof (add_well_formed s s' value Hwf Hadd) as Hwf'.
  assert (value ∈ _list s') as Hin
    by (apply (add_elem_of s s' value value Hwf Hadd); by left).
  apply (add_same_key_well_formed s' value value Hwf'); [|done..].
  rewrite (__contains___elem_of s' value Hwf'). by rewrite bool_decide_eq_true_2.
Qed.

(** X7. Adding a value whose key is new and discarding it again gives back
    the list the set had. *)
Theorem add_then_discard (s s1 : SortedListSet) (value : E) :
  well_formed s ->
  Forall (fun y => call (_key s) y <> call (_key s) value) (_list s) ->
  add s value = Ok s1 ->
  exists s2, discard s1 value = Ok s2 /\
    _list s2 = _list s /\ _key s2 = _key s /\ modCount s2 = modCount s1 + 1.
Proof.
  intros Hwf Hnew Hadd. rewrite Forall_forall in Hnew.
  pose proof (add_well_formed s s1 value Hwf Hadd) as Hwf1.
  destruct (add_total s value) as (s1' & Hadd' & Hkey1).
  rewrite Hadd in Hadd'. injection Hadd' as <-.
  assert (value ∈ _list s1) as Hin
    by (apply (add_elem_of s s1 value value Hwf Hadd); by left).
  apply list_elem_of_lookup_1 in Hin as [i Hi].
  pose proof (discard_present s1 value i Hwf1 Hi) as Hdis.
  eexists. split; [exact Hdis|]. simpl. split; [|done].
  pose proof (discard_well_formed _ _ _ Hwf1 Hdis) as Hwf2.
  unfold well_formed in Hwf2. simpl in Hwf2. rewrite Hkey1 in Hwf2.
  apply (ascending_ext (call (_key s))); [done..|].
  intros y.
  pose proof (discard_elem_of s1 _ value y Hwf1 Hdis) as Hd. simpl in Hd.
  rewrite Hd, (add_elem_of s s1 value y Hwf Hadd). split.
  - intros [[->|[Hy _]] Hne]; done.
  - intros Hy. split; [right; split; [done|by apply Hnew]|].
    intros ->. by apply (Hnew value).
Qed.

(** X8. Discarding a member and adding it again gives back the list the
    set had. *)
Theorem discard_then_add (s s1 : SortedListSet) (value : E) :
  well_formed s -> __contains__ s value = Ok true ->
  discard s value = Ok s1 ->
  exists s2, add s1 value = Ok s2 /\ _list s2 = _list s /\ _key s2 = _key s.
Proof.
  intros Hwf Hin Hdis.
  rewrite (__contains___elem_of s value Hwf) in Hin.
  injection Hin as Hin. apply bool_decide_eq_true in Hin.
  pose proof (discard_well_formed s s1 value Hwf Hdis) as Hwf1.
  destruct (discard_total s value) as (s1' & Hdis' & Hkey1).
  rewrite Hdis in Hdis'. injection Hdis' as <-.
  destruct (add_total s1 value) as (s2 & Hadd & Hkey2).
  exists s2. split; [done|]. split; [|congruence].
  pose proof (add_well_formed s1 s2 value Hwf1 Hadd) as Hwf2.
  unfold well_formed in Hwf2. rewrite Hkey2, Hkey1 in Hwf2.
  apply (ascending_ext (call (_key s))); [done..|].
  intros y. rewrite (add_elem_of s1 s2 value y Hwf1 Hadd).
  rewrite (discard_elem_of s s1 value y Hwf Hdis), Hkey1. split.
  - intros [->|[[Hy _] _]]; done.
  - intros Hy. destruct (decide (y = value)) as [->|Hne]; [by left|right].
    split; [done|]. intros Hk. apply Hne.
    by apply (ascending_key_inj (call (_key s)) (_list s)).
Qed.


(** *** Comparisons *)

Lemma eq_loop_drop (l ol : list E) (n i : nat) :
  i + n = length l -> length ol = length l ->
  eq_loop l ol (seq i n) = Ok (PyBool (bool_decide (drop i l = drop i ol))).
Proof.
  revert i. induction n as [|n IH]; intros i Hi Hlen; simpl.
  - rewrite !drop_ge by lia. by rewrite bool_decide_eq_true_2.
  - destruct (getitem_lt l i) as (a & -> & Ha); [lia|].
    destruct (getitem_lt ol i) as (b & -> & Hb); [lia|]. simpl.
    rewrite (drop_S l a i Ha), (drop_S ol b i Hb).
    destruct (decide (a ≠ b)) as [Hne|Heq].
    + rewrite bool_decide_eq_false_2; [done|]. congruence.
    + apply dec_stable in Heq as <-. rewrite IH by lia. do 2 f_equal.
      apply bool_decide_ext. split; congruence.
Qed.

Lemma all_in_forallb (o : SortedListSet) (elems : list E) :
  well_formed o ->
  all_in (OSortedListSet o) elems
  = Ok (PyBool (forallb (fun x => bool_decide (x ∈ _list o)) elems)).
Proof.
  intros Hwf. induction elems as [|x elems IH]; simpl; [done|].
  rewrite (__contains___elem_of o x Hwf). simpl.
  by destruct (bool_decide (x ∈ _list o)).
Qed.

(** The subset test of the base class, against another sorted set. *)
Lemma Set__le___brute_force (s o : SortedListSet) :
  well_formed s -> well_formed o ->
  Set__le__ s (OSortedListSet o) = Ok (PyBool (brute_force_subset s o)).
Proof.
  intros Hs Ho. unfold Set__le__, operand_len, __len__.
  destruct (decide _) as [Hgt|Hle].
  - do 2 f_equal. symmetry. apply not_true_is_false. intros Hall.
    unfold brute_force_subset in Hall. rewrite forallb_forall in Hall.
    assert (_list s ⊆+ _list o) as Hsub.
    { apply NoDup_submseteq; [by eapply ascending_list_NoDup|].
      intros x Hx. apply list_elem_of_In in Hx.
      by apply Hall, bool_decide_eq_true in Hx. }
    apply submseteq_length in Hsub. lia.
  - destruct (to_list___iter__ s) as (it & -> & Hlist). simpl.
    rewrite Hlist. simpl. by apply all_in_forallb.
Qed.

(** X9. For two sets with the same key function, [==] returns [True]
    exactly when the two backing lists are equal; when both lists are in
    ascending order this is when the two sets have the same members. *)
Theorem __eq___same_key (s o : SortedListSet) :
  _key s = _key o ->
  __eq__ s (OSortedListSet o) = Ok (PyBool (bool_decide (_list s = _list o))) /\
  (well_formed s -> well_formed o ->
   (_list s = _list o <->
    forall y, __contains__ s y = Ok true <-> __contains__ o y = Ok true)).
Proof.
  intros Hkey. split.
  - unfold __eq__. destruct (decide (_key s ≠ _key o)); [done|].
    destruct (decide _) as [Hne|Heq].
    + rewrite bool_decide_eq_false_2; [done|]. congruence.
    + apply dec_stable in Heq.
      by rewrite (eq_loop_drop (_list s) (_list o) (length (_list s)) 0).
  - intros Hs Ho.
    assert (forall P `{Decision P},
              Ok (bool_decide P) = (Ok true : result exn bool) <-> P) as Hb.
    { intros P ?. split.
      - intros [= Heq]. by apply bool_decide_eq_true in Heq.
      - intros HP. by rewrite bool_decide_eq_true_2. }
    split.
    + by intros Heq y; rewrite !__contains___elem_of, Heq.
    + intros Hext. unfold well_formed in Ho. rewrite <- Hkey in Ho.
      apply (ascending_ext (call (_key s))); [done..|]. intros y.
      specialize (Hext y).
      rewrite (__contains___elem_of s y Hs) in Hext.
      rewrite (__contains___elem_of o y) in Hext by (unfold well_formed; by rewrite <- Hkey).
      by rewrite !Hb in Hext.
Qed.

(** X10. For two sets with different key functions, [<=] returns what the
    element-by-element membership test returns. *)
Theorem __le___different_keys (log_cheaper : nat -> nat -> bool)
    (s o : SortedListSet) :
  well_formed s -> well_formed o -> _key s <> _key o ->
  __le__ log_cheaper s (OSortedListSet o) = Ok (PyBool (brute_force_subset s o)).
Proof.
  intros Hs Ho Hkey. unfold __le__.
  destruct (decide _) as [Hgt|Hle].
  - rewrite <- (Set__le___brute_force s o Hs Ho). unfold Set__le__.
    unfold operand_len, __len__. by destruct (decide _).
  - rewrite (bool_decide_eq_true_2 (_key s ≠ _key o)) by done.
    rewrite orb_true_r. by apply Set__le___brute_force.
Qed.


Lemma skip_loop_to (key : E -> Z) (ol : list E) (mykey : Z) (i j : nat) :
  i <= j -> j < length ol ->
  (forall k e, i <= k < j -> ol !! k = Some e -> (key e < mykey)%Z) ->
  (forall e, ol !! j = Some e -> ~ (mykey > key e)%Z) ->
  skip_loop key ol mykey i = Ok j.
Proof.
  funelim (skip_loop key ol mykey i); intros Hij Hj Hlo Hstop; clear Heqcall.
  - lia.
  - apply lookup_ge_None in Heq. lia.
  - apply H; [|done| |done].
    + destruct (decide (i = j)) as [->|]; [|lia]. by apply Hstop in Heq0.
    + intros k e' Hk. apply Hlo. lia.
  - f_equal. destruct (decide (i = j)) as [|Hne]; [done|].
    pose proof (Hlo i e ltac:(lia) Heq0). lia.
Qed.

(** The scan answers [True] when every item sits in the other list at or
    after the cursor. *)
Lemma scan_subset (key : E -> Z) (ol items : list E) (i : nat) :
  ascending key ol -> ascending key items ->
  (forall x, x ∈ items -> exists j, i <= j /\ ol !! j = Some x) ->
  scan key ol items i = Ok (PyBool true).
Proof.
  intros Hol. revert i. induction items as [|item rest IH]; intros i Hitems Hin;
    simpl; [done|].
  apply StronglySorted_cons in Hitems as [Hrest Hitems].
  rewrite Forall_forall in Hrest.
  destruct (Hin item ltac:(by left)) as (j & Hij & Hj).
  pose proof (lookup_lt_Some _ _ _ Hj) as Hjlen.
  destruct (getitem_lt ol i) as (oi & -> & Hoi); [lia|]. simpl.
  assert (forall x, x ∈ rest -> exists j', j < j' /\ ol !! j' = Some x) as Hafter.
  { intros x Hx. destruct (Hin x ltac:(by right)) as (j' & _ & Hj').
    exists j'. split; [|done]. specialize (Hrest x Hx). simpl in Hrest.
    destruct (lt_eq_lt_dec j' j) as [[Hlt|Heq]|Hgt]; [| |done].
    - pose proof (ascending_lookup key ol j' j x item Hol Hlt Hj' Hj). lia.
    - subst j'. assert (x = item) by congruence. subst x. lia. }
  destruct (decide (item = oi)) as [<-|Hne].
  - apply IH; [done|]. intros x Hx.
    assert (j = i) as ->.
    { destruct (decide (j = i)); [done|].
      pose proof (ascending_lookup key ol i j item item Hol ltac:(lia) Hoi Hj). lia. }
    destruct (Hafter x Hx) as (j' & Hlt & Hj'). exists j'. split; [lia|done].
  - assert (i < j) as Hlt.
    { destruct (decide (i = j)) as [->|]; [congruence|lia]. }
    pose proof (ascending_lookup key ol i j oi item Hol Hlt Hoi Hj) as Hk.
    destruct (decide (key item <= key oi)%Z); [lia|].
    rewrite (skip_loop_to key ol (key item) (i + 1) j); [|lia|done| |].
    + simpl. destruct (decide (j >= length ol)); [lia|].
      apply IH; [done|]. intros x Hx.
      destruct (Hafter x Hx) as (j' & Hlt' & Hj'). exists j'. split; [lia|done].
    + intros k e Hke He.
      apply (ascending_lookup key ol k j e item Hol); [lia|done..].
    + intros e He. assert (e = item) by congruence. subst e. lia.
Qed.

(** X11. [<=] never rejects a subset: when every element of the left set
    is an element of the right one, [<=] returns [True], whichever of its
    paths it takes. *)
Theorem __le___accepts_subsets (log_cheaper : nat -> nat -> bool)
    (s o : SortedListSet) :
  well_formed s -> well_formed o ->
  brute_force_subset s o = true ->
  __le__ log_cheaper s (OSortedListSet o) = Ok (PyBool true).
Proof.
  intros Hs Ho Hsub. unfold __le__.
  pose proof (Set__le___brute_force s o Hs Ho) as Hgen. rewrite Hsub in Hgen.
  destruct (decide _) as [Hgt|Hle].
  - unfold Set__le__, operand_len, __len__ in Hgen.
    by destruct (decide (length (_list s) > length (_list o))).
  - destruct (_ || _) eqn:Hpath; [done|].
    apply orb_false_elim in Hpath as [_ Hkey].
    apply bool_decide_eq_false in Hkey. apply dec_stable in Hkey.
    apply scan_subset; [by rewrite Hkey|done|].
    intros x Hx. unfold brute_force_subset in Hsub.
    rewrite forallb_forall in Hsub. apply list_elem_of_In in Hx.
    apply Hsub, bool_decide_eq_true in Hx.
    apply list_elem_of_lookup_1 in Hx as [j Hj]. exists j. split; [lia|done].
Qed.

(** *** Iteration over a range *)

(** The bounds of [iter]: [from_] admits the elements whose key is not
    below its own, [to_] those whose key is below its own; an absent bound
    admits every element. *)
Definition admits_from (key : E -> Z) (from_ : option E) (x : E) : Prop :=
  match from_ with
  | None => True
  | Some f => (key f <= key x)%Z
  end.

Definition admits_to (key : E -> Z) (to_ : option E) (x : E) : Prop :=
  match to_ with
  | None => True
  | Some t => (key x < key t)%Z
  end.

(** X12. On a set in ascending order, [iter(from_, to_)] returns an
    iterator that yields, in the order of the list, exactly the elements of
    the set that both bounds admit. *)
Theorem iter_yields_range (s : SortedListSet) (from_ to_ : option E) :
  well_formed s ->
  exists it r, iter s from_ to_ = Ok it /\ to_list s it = Ok r /\
    r `sublist_of` _list s /\
    forall x, x ∈ r <->
      x ∈ _list s /\ admits_from (call (_key s)) from_ x
      /\ admits_to (call (_key s)) to_ x.
Proof.
  intros Hwf.
  assert (exists fi, bound_pos s from_ 0 = Ok fi /\
            forall j e, _list s !! j = Some e ->
              (fi <= j <-> admits_from (call (_key s)) from_ e))
    as (fi & Hfi & Hfrom).
  { destruct from_ as [f|]; simpl.
    - destruct (_pos_spec s f Hwf) as (at_ & Hpos & _ & Hlo & Hhi).
      exists at_. split; [done|]. intros j e Hj.
      split; [intros Hle; by apply (Hhi j)|].
      intros Hk. destruct (decide (at_ <= j)); [done|].
      pose proof (Hlo j e ltac:(lia) Hj). lia.
    - exists 0. split; [done|]. intros j e _. split; [done|lia]. }
  assert (exists ti, bound_pos s to_ (length (_list s)) = Ok ti /\
            forall j e, _list s !! j = Some e ->
              (j < ti <-> admits_to (call (_key s)) to_ e))
    as (ti & Hti & Hto).
  { destruct to_ as [t|]; simpl.
    - destruct (_pos_spec s t Hwf) as (at_ & Hpos & _ & Hlo & Hhi).
      exists at_. split; [done|]. intros j e Hj.
      split; [intros Hlt; by apply (Hlo j)|].
      intros Hk. destruct (decide (j < at_)); [done|].
      pose proof (Hhi j e ltac:(lia) Hj). lia.
    - eexists. split; [done|]. intros j e Hj. split; [done|].
      intros _. by eapply lookup_lt_Some. }
  unfold iter. rewrite Hfi, Hti. simpl.
  eexists _, _. split; [done|]. split; [apply to_list_fresh|].
  unfold slice. split.
  - etrans; [apply sublist_take|apply sublist_drop].
  - intros x. rewrite elem_of_take. split.
    + intros (i & Hi & Hlt). rewrite lookup_drop in Hi.
      split; [by eapply list_elem_of_lookup_2|].
      split; [apply (Hfrom (fi + i) x Hi); lia|apply (Hto (fi + i) x Hi); lia].
    + intros (Hx & Hf & Ht). apply list_elem_of_lookup_1 in Hx as [j Hj].
      apply (Hfrom j x Hj) in Hf. apply (Hto j x Hj) in Ht.
      exists (j - fi). rewrite lookup_drop.
      replace (fi + (j - fi)) with j by lia. split; [done|lia].
Qed.

(** X13. A [discard] that removes an element makes an iterator created
    before it raise [RuntimeError] on its next advance; a [discard] that
    removes nothing returns the set as it was, and the iterator goes on. *)
Theorem discard_detected (s s' : SortedListSet) (value : E)
    (from_ to_ : option E) (it : Iterator) :
  iter s from_ to_ = Ok it ->
  discard s value = Ok s' ->
  (_list s' <> _list s ->
   Iterator__next__ s' it = (Raise RuntimeError, it)) /\
  (_list s' = _list s -> s' = s).
Proof.
  intros Hit Hdis.
  assert (s' = s \/ modCount s' = modCount s + 1) as [->|Hmc].
  { revert Hdis. unfold discard.
    destruct (_pos_total s value) as (at_ & -> & _). simpl.
    destruct (decide _) as [Hin|]; [|intros [= <-]; by left].
    destruct (getitem_lt (_list s) at_ Hin) as (e & -> & _). simpl.
    destruct (decide _); intros [= <-]; auto. }
  - split; [done|done].
  - split.
    + intros _. apply (iterator_detects s s' from_ to_ it Hit). lia.
    + intros Heq. exfalso. revert Hdis Heq Hmc. unfold discard.
      destruct (_pos_total s value) as (at_ & -> & _). simpl.
      destruct (decide _) as [Hin|]; [|intros [= <-]; lia].
      destruct (getitem_lt (_list s) at_ Hin) as (e & -> & _). simpl.
      destruct (decide _); intros [= <-]; simpl; [|lia].
      intros Heq _. apply (f_equal length) in Heq.
      rewrite length_delete in Heq by (by apply lookup_lt_is_Some_2). lia.
Qed.


(** *** What the constructor keeps *)

(** The elements an iterable produces. *)
Definition produced (it : iterable) : list E :=
  match it with
  | IterNone => []
  | Sized _ items => items
  | Unsized items => items
  end.

Lemma fill_lookup (items : list E) (buf buf' : list (option E)) (i n j : nat) :
  fill buf i items = Ok (buf', n) ->
  buf' !! j =
  if decide (i <= j < i + length items) then Some <$> items !! (j - i)
  else buf !! j.
Proof.
  revert buf i. induction items as [|x items IH]; simpl; intros buf i.
  - intros [= <- <-]. destruct (decide _); [lia|done].
  - destruct (decide (i < length buf)) as [Hlt|]; [|discriminate]. intros Hfill.
    rewrite (IH _ _ Hfill).
    destruct (decide (i + 1 <= j < i + 1 + length items)) as [Hin|Hout].
    + destruct (decide _); [|lia].
      replace (j - i) with (S (j - (i + 1))) by lia. done.
    + destruct (decide (j = i)) as [->|Hne].
      * rewrite list_lookup_insert_eq by done.
        destruct (decide _); [|lia]. by rewrite Nat.sub_diag.
      * rewrite list_lookup_insert_ne by done. destruct (decide _); [lia|done].
Qed.

Lemma unwrap_fmap (items : list E) : unwrap (Some <$> items) = Ok items.
Proof. induction items as [|x items IH]; csimpl; [done|]. by rewrite IH. Qed.

(** The sort is stable: it keeps the order of the elements of one key. *)
Lemma sort_insert_filter (key : E -> Z) (k : Z) (x : E) (l : list E) :
  filter (fun y => key y = k) (sort_insert key x l)
  = filter (fun y => key y = k) (x :: l).
Proof.
  induction l as [|y l IH]; simpl; [done|].
  destruct (decide (key x <= key y)%Z) as [Hle|Hgt]; [done|].
  rewrite (filter_cons _ y), IH, !(filter_cons _ x), (filter_cons _ y).
  repeat destruct (decide _); try done. lia.
Qed.

Lemma list_sort_filter (key : E -> Z) (k : Z) (l : list E) :
  filter (fun y => key y = k) (list_sort key l) = filter (fun y => key y = k) l.
Proof.
  induction l as [|x l IH]; simpl; [done|].
  rewrite sort_insert_filter, !filter_cons, IH. done.
Qed.

(** Deleting the first of two neighbours with one key keeps the last
    element of every key. *)
Lemma last_filter_delete (key : E -> Z) (k : Z) (l : list E) (i : nat) (a b : E) :
  l !! i = Some a -> l !! S i = Some b -> key a = key b ->
  last (filter (fun y => key y = k) (delete i l))
  = last (filter (fun y => key y = k) l).
Proof.
  intros Ha Hb Hk.
  rewrite delete_take_drop.
  rewrite <- (take_drop_middle l i a Ha) at 3.
  assert (drop (S i) l = b :: drop (S (S i)) l) as ->
    by (by apply drop_S).
  rewrite !filter_app, !(filter_cons _ a), !(filter_cons _ b).
  destruct (decide (key a = k)) as [Hka|Hka];
    destruct (decide (key b = k)) as [Hkb|Hkb]; try congruence.
  rewrite !last_app. by rewrite last_cons_cons.
Qed.

Lemma dedup_loop_last (key : E -> Z) (k : Z) (l l' : list E) (last_ : E) (i : nat) :
  dedup_loop key l last_ i = Ok l' ->
  1 <= i -> l !! (i - 1) = Some last_ ->
  last (filter (fun y => key y = k) l') = last (filter (fun y => key y = k) l).
Proof.
  funelim (dedup_loop key l last_ i); intros Hres Hi Hlast; clear Heqcall.
  - by injection Hres as <-.
  - discriminate.
  - apply H; [done|lia|]. by rewrite Nat.add_sub.
  - rewrite list_lookup_delete_ge in Heq by lia.
    replace (S (i - 1)) with i in Heq by lia.
    rewrite Heq1 in Heq. injection Heq as <-.
    rewrite (H k l' Hres Hi).
    + apply (last_filter_delete key k l (i - 1) last_ e); [done| |done].
      by replace (S (i - 1)) with i by lia.
    + rewrite list_lookup_delete_ge by lia.
      by replace (S (i - 1)) with i by lia.
  - discriminate.
Qed.

Lemma ascending_last_filter (key : E -> Z) (l : list E) (y : E) :
  ascending key l -> y ∈ l ->
  last (filter (fun x => key x = key y) l) = Some y.
Proof.
  intros Hasc Hy.
  assert (y ∈ filter (fun x => key x = key y) l) as Hin
    by (by apply list_elem_of_filter).
  destruct (last (filter (fun x => key x = key y) l)) as [z|] eqn:Hlast.
  - f_equal. apply last_Some_elem_of, list_elem_of_filter in Hlast as [Hk Hz].
    by apply (ascending_key_inj key l).
  - apply last_None in Hlast. rewrite Hlast in Hin. by apply elem_of_nil in Hin.
Qed.

(** The list the constructor builds, from the elements produced. *)
Lemma __init___list (lam : nat) (it : iterable) (key : key_arg)
    (s : SortedListSet) :
  __init__ lam it key = Ok s ->
  match list_sort (call (_key s)) (produced it) with
  | [] => _list s = []
  | x :: rest => dedup_loop (call (_key s)) (x :: rest) x 1 = Ok (_list s)
  end.
Proof.
  unfold __init__. intros Hinit.
  apply rbind_Ok in Hinit as (key_ & _ & Hinit).
  apply rbind_Ok in Hinit as (list_ & Hpop & Hinit).
  apply rbind_Ok in Hinit as (l' & Hl' & [= <-]). simpl.
  assert (list_ = produced it) as ->.
  { destruct it as [|reported items|items]; simpl in *; [congruence| |congruence].
    apply rbind_Ok in Hpop as ([buf n] & Hfill & Hpop). simpl in Hpop.
    destruct (decide _) as [|Hle]; [discriminate|].
    pose proof (fill_Ok items _ _ 0 n ltac:(lia) Hfill) as (Hlen & Hn & Hnle & _).
    rewrite length_replicate in Hlen, Hnle.
    assert (buf = Some <$> items) as ->.
    { apply list_eq. intros j. rewrite (fill_lookup _ _ _ _ _ j Hfill).
      rewrite list_lookup_fmap, Nat.sub_0_r.
      destruct (decide _) as [|Hout]; [done|].
      rewrite (lookup_ge_None_2 items) by lia. simpl.
      apply lookup_replicate_None. lia. }
    rewrite unwrap_fmap in Hpop. congruence. }
  destruct (list_sort (call key_) (produced it)); [congruence|done].
Qed.

(** X14. The set the constructor returns holds, for every key among the
    elements produced, the last element produced with that key, and
    nothing else. *)
Theorem __init___keeps_last (lam : nat) (it : iterable) (key : key_arg)
    (s : SortedListSet) :
  __init__ lam it key = Ok s ->
  forall y, y ∈ _list s <->
    last (filter (fun x => call (_key s) x = call (_key s) y) (produced it))
    = Some y.
Proof.
  intros Hinit y.
  pose proof (__init___well_formed lam it key s Hinit) as [Hwf _].
  pose proof (__init___list lam it key s Hinit) as Hlist.
  assert (last (filter (fun x => call (_key s) x = call (_key s) y) (_list s))
          = last (filter (fun x => call (_key s) x = call (_key s) y) (produced it)))
    as Hlast.
  { rewrite <- (list_sort_filter (call (_key s)) (call (_key s) y) (produced it)).
    destruct (list_sort (call (_key s)) (produced it)) as [|x rest].
    - by rewrite Hlist.
    - by apply (dedup_loop_last _ _ _ _ x 1 Hlist). }
  rewrite <- Hlast. split.
  - by apply ascending_last_filter.
  - intros Hy. by apply last_Some_elem_of, list_elem_of_filter in Hy as [_ Hy].
Qed.


(** *** The counter *)

Lemma apply_op_modCount (s s' : SortedListSet) (o : op) :
  apply_op s o = Ok s' ->
  modCount s <= modCount s' <= modCount s + 1.
Proof.
  destruct o as [v|v]; simpl.
  - unfold add. destruct (_pos_total s v) as (at_ & -> & Hlen). simpl.
    destruct (decide _); [intros [= <-]; simpl; lia|].
    destruct (getitem_lt (_list s) at_) as (e & -> & _); [lia|]. simpl.
    repeat destruct (decide _); intros [= <-]; simpl; lia.
  - unfold discard. destruct (_pos_total s v) as (at_ & -> & Hlen). simpl.
    destruct (decide _) as [Hin|]; [|intros [= <-]; lia].
    destruct (getitem_lt (_list s) at_ Hin) as (e & -> & _). simpl.
    destruct (decide _); intros [= <-]; simpl; lia.
Qed.

(** X25. Over any sequence of [add] and [discard] calls the counter
    never goes down, and it grows by at most one for each call. *)
Theorem modCount_monotone (s s' : SortedListSet) (ops : list op) :
  run s ops = Ok s' ->
  modCount s <= modCount s' <= modCount s + length ops.
Proof.
  revert s. induction ops as [|o ops IH]; intros s; simpl.
  - intros [= <-]. lia.
  - intros Hrun. apply rbind_Ok in Hrun as (s1 & Hop & Hrun).
    apply apply_op_modCount in Hop. apply IH in Hrun. lia.
Qed.


End SortedListSet.

(** ** The class on integers *)

(** Elements are integers; [lambda x: x] orders them as they are, the
    function [Named 0] is the identity passed in by the caller and every
    other named function is [abs]. *)
Definition int_ord : Z -> Z := fun x => x.

Definition int_named (n : nat) : Z -> Z :=
  match n with
  | 0 => fun x => x
  | _ => Z.abs
  end.

(** The constructor sorts its elements, and of two elements with one key
    it keeps the one produced later. *)
Example init_sorts :
  __init__ int_ord int_named 0 (Unsized [0; 15; 1; -3]%Z) KeyNone
  = Ok (mkSet (Lambda 0) [-3; 0; 1; 15]%Z 0).
Proof. reflexivity. Qed.

Example init_keeps_later :
  __init__ int_ord int_named 0 (Unsized [3; 7; -3]%Z) (KeyCallable (Named 1))
  = Ok (mkSet (Named 1) [-3; 7]%Z 0).
Proof. reflexivity. Qed.

(** [iter] yields the elements from [from_] up to, not including, [to_]. *)
Example iter_range :
  let s := mkSet (Lambda 0) [1; 5; 9; 11]%Z 0 in
  (let* it := iter int_ord int_named s (Some 4%Z) (Some 11%Z) in to_list s it)
  = Ok [5; 9]%Z.
Proof. reflexivity. Qed.

(** C7, on the set built from [3, 1, 3, 2], then [add(5)], [discard(1)],
    [add(2)]. *)
Lemma order_invariant_witness :
  exists s' itr,
    run int_ord int_named (mkSet (Lambda 0) [1; 2; 3]%Z 0)
        [Add 5%Z; Discard 1%Z; Add 2%Z] = Ok s' /\
    __iter__ int_ord int_named s' = Ok itr /\
    to_list s' itr = Ok (_list s') /\
    ascending (call int_ord int_named (_key s')) (_list s') /\
    NoDup (call int_ord int_named (_key s') <$> _list s') /\
    length (_list s') = __len__ s'.
Proof.
  apply (order_invariant int_ord int_named 0 (Sized 4 [3; 1; 3; 2]%Z) KeyNone).
  reflexivity.
Defined.

(** C8, on the set built from [7, -3] ordered by [abs], after [add(10)]
    and [discard(10)]: [3] has the key of [-3]. *)
Lemma add_same_key_witness :
  let s := mkSet (Named 1) [-3; 7]%Z 2 in
  (3 = -3 -> add int_ord int_named s 3 = Ok s)%Z /\
  ((3 <> -3)%Z ->
   exists s', add int_ord int_named s 3%Z = Ok s' /\
     __len__ s' = __len__ s /\
     __contains__ int_ord int_named s' 3%Z = Ok true /\
     __contains__ int_ord int_named s' (-3)%Z = Ok false /\
     modCount s' = modCount s + 1).
Proof.
  apply (add_same_key int_ord int_named 0 (Unsized [7; -3]%Z)
           (KeyCallable (Named 1)) [Add 0%Z; Discard 0%Z]
           (mkSet (Named 1) [-3; 7]%Z 0) (mkSet (Named 1) [-3; 7]%Z 2)
           (-3)%Z 3%Z).
  - reflexivity.
  - reflexivity.
  - reflexivity.
  - reflexivity.
Defined.

(** C10, on [{1, 5, 9}] with [from_ = 40] and [to_ = 5]. *)
Lemma iter_empty_range_witness :
  exists it,
    iter int_ord int_named (mkSet (Lambda 0) [1; 5; 9]%Z 0) (Some 40%Z) (Some 5%Z)
    = Ok it /\
    Iterator__next__ (mkSet (Lambda 0) [1; 5; 9]%Z 0) it = (Raise StopIteration, it) /\
    to_list (mkSet (Lambda 0) [1; 5; 9]%Z 0) it = Ok [].
Proof.
  apply (iter_empty_range int_ord int_named (mkSet (Lambda 0) [1; 5; 9]%Z 0)
           (Some 40%Z) (Some 5%Z) 3 1).
  - reflexivity.
  - reflexivity.
  - lia.
Defined.

(** ** Instances of the further properties *)

(** Discharges [well_formed] on a set given by its elements. *)
Ltac ascending_by_computation :=
  unfold well_formed, ascending; simpl; repeat constructor; simpl; lia.

(** The set [{-3, 7, -10}] ordered by [abs], and a superset of it. *)
Definition abs_set : SortedListSet := mkSet (Named 1) [-3; 7; -10]%Z 4.
Definition abs_superset : SortedListSet := mkSet (Named 1) [1; -3; 5; 7; -10]%Z 0.

(** X1, for the query [8]. *)
Lemma _pos_insertion_point_witness :
  exists at_, _pos int_ord int_named abs_set 8%Z = Ok at_ /\
    at_ <= length (_list abs_set) /\
    forall j e, _list abs_set !! j = Some e ->
      (j < at_ <-> (call int_ord int_named (_key abs_set) e
                    < call int_ord int_named (_key abs_set) 8)%Z).
Proof.
  apply (_pos_insertion_point int_ord int_named abs_set 8%Z).
  ascending_by_computation.
Defined.

(** X2, for [3], which has the key of the member [-3]. *)
Lemma __contains___is_membership_witness :
  __contains__ int_ord int_named abs_set 3%Z
  = Ok (bool_decide (3%Z ∈ _list abs_set)).
Proof.
  apply (__contains___is_membership int_ord int_named abs_set 3%Z).
  ascending_by_computation.
Defined.

(** X3, for [add(3)]. *)
Lemma add_members_witness :
  exists s', add int_ord int_named abs_set 3%Z = Ok s' /\
    forall y, __contains__ int_ord int_named s' y = Ok true <->
      y = 3%Z \/
      (__contains__ int_ord int_named abs_set y = Ok true /\
       call int_ord int_named (_key abs_set) y
       <> call int_ord int_named (_key abs_set) 3%Z).
Proof.
  apply (add_members int_ord int_named abs_set 3%Z).
  ascending_by_computation.
Defined.

(** X4, for [add(5)], whose key is new. *)
Lemma add_len_witness :
  let s' := mkSet (Named 1) [-3; 5; 7; -10]%Z 5 in
  ((exists y, y ∈ _list abs_set /\
      call int_ord int_named (_key abs_set) y
      = call int_ord int_named (_key abs_set) 5%Z) ->
   __len__ s' = __len__ abs_set) /\
  ((forall y, y ∈ _list abs_set ->
      call int_ord int_named (_key abs_set) y
      <> call int_ord int_named (_key abs_set) 5%Z) ->
   __len__ s' = __len__ abs_set + 1).
Proof.
  apply (add_len int_ord int_named abs_set
           (mkSet (Named 1) [-3; 5; 7; -10]%Z 5) 5%Z).
  - ascending_by_computation.
  - reflexivity.
Defined.

(** X5, for [discard(7)]. *)
Lemma discard_members_witness :
  exists s', discard int_ord int_named abs_set 7%Z = Ok s' /\
    (forall y, __contains__ int_ord int_named s' y = Ok true <->
               __contains__ int_ord int_named abs_set y = Ok true /\ y <> 7%Z) /\
    (__contains__ int_ord int_named abs_set 7%Z = Ok true ->
     __len__ s' + 1 = __len__ abs_set /\ modCount s' = modCount abs_set + 1) /\
    (__contains__ int_ord int_named abs_set 7%Z = Ok false -> s' = abs_set).
Proof.
  apply (discard_members int_ord int_named abs_set 7%Z).
  ascending_by_computation.
Defined.

(** X6, for [add(3)] twice. *)
Lemma add_idempotent_witness :
  add int_ord int_named (mkSet (Named 1) [3; 7; -10]%Z 5) 3%Z
  = Ok (mkSet (Named 1) [3; 7; -10]%Z 5).
Proof.
  apply (add_idempotent int_ord int_named abs_set
           (mkSet (Named 1) [3; 7; -10]%Z 5) 3%Z).
  - ascending_by_computation.
  - reflexivity.
Defined.

(** X7, for [add(5)] and then [discard(5)]. *)
Lemma add_then_discard_witness :
  let s1 := mkSet (Named 1) [-3; 5; 7; -10]%Z 5 in
  exists s2, discard int_ord int_named s1 5%Z = Ok s2 /\
    _list s2 = _list abs_set /\ _key s2 = _key abs_set /\
    modCount s2 = modCount s1 + 1.
Proof.
  apply (add_then_discard int_ord int_named abs_set
           (mkSet (Named 1) [-3; 5; 7; -10]%Z 5) 5%Z).
  - ascending_by_computation.
  - simpl. repeat constructor; simpl; lia.
  - reflexivity.
Defined.

(** X8, for [discard(7)] and then [add(7)]. *)
Lemma discard_then_add_witness :
  exists s2, add int_ord int_named (mkSet (Named 1) [-3; -10]%Z 5) 7%Z = Ok s2 /\
    _list s2 = _list abs_set /\ _key s2 = _key abs_set.
Proof.
  apply (discard_then_add int_ord int_named abs_set
           (mkSet (Named 1) [-3; -10]%Z 5) 7%Z).
  - ascending_by_computation.
  - reflexivity.
  - reflexivity.
Defined.

(** X9, for the set and its superset. *)
Lemma __eq___same_key_witness :
  __eq__ int_ord int_named abs_set (OSortedListSet abs_superset)
  = Ok (PyBool (bool_decide (_list abs_set = _list abs_superset))) /\
  (well_formed int_ord int_named abs_set ->
   well_formed int_ord int_named abs_superset ->
   (_list abs_set = _list abs_superset <->
    forall y, __contains__ int_ord int_named abs_set y = Ok true <->
              __contains__ int_ord int_named abs_superset y = Ok true)).
Proof.
  apply (__eq___same_key int_ord int_named abs_set abs_superset).
  reflexivity.
Defined.

(** X10, for the set against the integers [{3, 7}] in their own order. *)
Lemma __le___different_keys_witness :
  __le__ int_ord int_named (fun _ _ => true) abs_set
    (OSortedListSet (mkSet (Lambda 0) [3; 7]%Z 0))
  = Ok (PyBool (brute_force_subset abs_set (mkSet (Lambda 0) [3; 7]%Z 0))).
Proof.
  apply (__le___different_keys int_ord int_named (fun _ _ => true) abs_set
           (mkSet (Lambda 0) [3; 7]%Z 0)).
  - ascending_by_computation.
  - ascending_by_computation.
  - discriminate.
Defined.

(** X11, for the set against its superset. *)
Lemma __le___accepts_subsets_witness :
  __le__ int_ord int_named (fun _ _ => false) abs_set (OSortedListSet abs_superset)
  = Ok (PyBool true).
Proof.
  apply (__le___accepts_subsets int_ord int_named (fun _ _ => false)
           abs_set abs_superset).
  - ascending_by_computation.
  - ascending_by_computation.
  - reflexivity.
Defined.

(** X12, for [iter(4, 10)] on the superset. *)
Lemma iter_yields_range_witness :
  exists it r,
    iter int_ord int_named abs_superset (Some 4%Z) (Some 10%Z) = Ok it /\
    to_list abs_superset it = Ok r /\
    r `sublist_of` _list abs_superset /\
    forall x, x ∈ r <->
      x ∈ _list abs_superset
      /\ admits_from (call int_ord int_named (_key abs_superset)) (Some 4%Z) x
      /\ admits_to (call int_ord int_named (_key abs_superset)) (Some 10%Z) x.
Proof.
  apply (iter_yields_range int_ord int_named abs_superset (Some 4%Z) (Some 10%Z)).
  ascending_by_computation.
Defined.

(** X13, for an iterator over the whole set and [discard(7)]. *)
Lemma discard_detected_witness :
  let s' := mkSet (Named 1) [-3; -10]%Z 5 in
  let it := mkIterator 4 [-3; 7; -10]%Z in
  (_list s' <> _list abs_set ->
   Iterator__next__ s' it = (Raise RuntimeError, it)) /\
  (_list s' = _list abs_set -> s' = abs_set).
Proof.
  apply (discard_detected int_ord int_named abs_set
           (mkSet (Named 1) [-3; -10]%Z 5) 7%Z None None
           (mkIterator 4 [-3; 7; -10]%Z)).
  - reflexivity.
  - reflexivity.
Defined.

(** X14, for the constructor on [3, 7, -3] ordered by [abs], and the
    element [-3]. *)
Lemma __init___keeps_last_witness :
  let s := mkSet (Named 1) [-3; 7]%Z 0 in
  (-3)%Z ∈ _list s <->
    last (filter (fun x => call int_ord int_named (_key s) x
                           = call int_ord int_named (_key s) (-3)%Z)
            (produced (Unsized [3; 7; -3]%Z)))
    = Some (-3)%Z.
Proof.
  apply (__init___keeps_last int_ord int_named 0 (Unsized [3; 7; -3]%Z)
           (KeyCallable (Named 1)) (mkSet (Named 1) [-3; 7]%Z 0) eq_refl (-3)%Z).
Defined.

(** X25, for [add(5)], [add(5)], [discard(7)], [discard(7)]. *)
Lemma modCount_monotone_witness :
  modCount abs_set <= modCount (mkSet (Named 1) [-3; 5; -10]%Z 6)
  <= modCount abs_set + length [Add 5%Z; Add 5%Z; Discard 7%Z; Discard 7%Z].
Proof.
  apply (modCount_monotone int_ord int_named abs_set
           (mkSet (Named 1) [-3; 5; -10]%Z 6)
           [Add 5%Z; Add 5%Z; Discard 7%Z; Discard 7%Z]).
  reflexivity.
Defined.


(** ** Where the code leaves its documentation *)

(** C1. [{2, 3} <= {1, 3, 4}], both ordered by the same function: the scan
    moves past [1], stops at [3] without comparing it with [2], matches [3]
    and answers [True]; [2] is not a member of the right operand. *)
Theorem le_scan_accepts_non_subset (log_cheaper : nat -> nat -> bool) :
  let s := mkSet (Named 0) [2; 3]%Z 0 in
  let o := mkSet (Named 0) [1; 3; 4]%Z 0 in
  __init__ int_ord int_named 0 (Unsized [2; 3]%Z) (KeyCallable (Named 0)) = Ok s /\
  __init__ int_ord int_named 1 (Unsized [1; 3; 4]%Z) (KeyCallable (Named 0)) = Ok o /\
  __le__ int_ord int_named log_cheaper s (OSortedListSet o) = Ok (PyBool true) /\
  __contains__ int_ord int_named o 2%Z = Ok false /\
  brute_force_subset s o = false.
Proof. repeat split. Qed.

(** The same scan reads past the end of the right operand on
    [{1, 2, 3} <= {-1, 0, 2}]. *)
Lemma le_scan_index_error (log_cheaper : nat -> nat -> bool) :
  __le__ int_ord int_named log_cheaper (mkSet (Named 0) [1; 2; 3]%Z 0)
    (OSortedListSet (mkSet (Named 0) [-1; 0; 2]%Z 0)) = Raise IndexError.
Proof. reflexivity. Qed.

(** C3. [add(2)] on the set built from [1] appends and leaves the counter
    at zero. *)
Theorem add_append_keeps_modCount :
  let s := mkSet (Lambda 0) [1]%Z 0 in
  __init__ int_ord int_named 0 (Unsized [1]%Z) KeyNone = Ok s /\
  _pos int_ord int_named s 2%Z = Ok (length (_list s)) /\
  add int_ord int_named s 2%Z = Ok (mkSet (Lambda 0) [1; 2]%Z 0).
Proof. repeat split. Qed.

(** C4. An iterator over [{1}] made before [add(2)] still advances after
    it: the append left the counter as the iterator saw it. *)
Theorem append_not_detected :
  let s := mkSet (Lambda 0) [1]%Z 0 in
  exists it s',
    __iter__ int_ord int_named s = Ok it /\
    add int_ord int_named s 2%Z = Ok s' /\
    _list s' = [1; 2]%Z /\
    Iterator__next__ s' it = (Ok 1%Z, mkIterator 0 []).
Proof. do 2 eexists. repeat split. Qed.

(** C5. [{1} == {1, 2}] for two sets made without a key, whose key
    functions are therefore two different objects: the answer is that of
    the subset test, [True]; the sets differ in size. *)
Theorem eq_fallback_is_subset_test :
  let s := mkSet (Lambda 0) [1]%Z 0 in
  let x := mkSet (Lambda 1) [1; 2]%Z 0 in
  __init__ int_ord int_named 0 (Unsized [1]%Z) KeyNone = Ok s /\
  __init__ int_ord int_named 1 (Unsized [1; 2]%Z) KeyNone = Ok x /\
  __eq__ int_ord int_named s (OSortedListSet x) = Ok (PyBool true) /\
  generic_set_equality s (OSortedListSet x) = false.
Proof. repeat split. Qed.

(** C6. A sized iterable that reports one element and produces two makes
    the constructor raise [IndexError]; one that reports three and produces
    two makes it raise the [ValueError] with both counts. *)
Theorem init_more_than_reported :
  __init__ int_ord int_named 0 (Sized 1 [5; 4]%Z) KeyNone = Raise IndexError /\
  __init__ int_ord int_named 0 (Sized 3 [5; 4]%Z) KeyNone = Raise (ValueError 3 2).
Proof. split; reflexivity. Qed.

End Sets.

(** * mapping.py *)
Module Mapping.

(** Hashable Python values, the keys and values of a [OneToOneMap]. *)
Inductive pyval : Type :=
| PyNone
| PyInt (z : Z)
| PyStr (s : string)
| PyBytes (s : string)
| PyEmptyTuple.

#[global] Instance pyval_eq_dec : EqDecision pyval.
Proof. solve_decision. Defined.

#[global] Instance pyval_countable : Countable pyval.
Proof.
  refine (inj_countable'
    (fun v => match v with
              | PyNone => inl (inl ())
              | PyInt z => inl (inr z)
              | PyStr s => inr (inl s)
              | PyBytes s => inr (inr (inl s))
              | PyEmptyTuple => inr (inr (inr ()))
              end)
    (fun c => match c with
              | inl (inl ()) => PyNone
              | inl (inr z) => PyInt z
              | inr (inl s) => PyStr s
              | inr (inr (inl s)) => PyBytes s
              | inr (inr (inr ())) => PyEmptyTuple
              end) _).
  by intros [].
Defined.

(** Exceptions raised by [mapping.py]. [ValueError value owner] and
    [KeyError key (Some owner)] are the conflicts raised by [__setitem__],
    with the first and the last of their three arguments;
    [KeyError key None] is the failed lookup of a dictionary. [SystemError]
    stands for a reference to an object that does not exist. *)
Inductive exn : Type :=
| ValueError (value owner : pyval)
| KeyError (key : pyval) (owner : option pyval)
| TypeError
| AssertionError
| AttributeError
| SystemError.

(** ** The heap *)

(** The attributes of a [OneToOneMap]: references to the two dictionaries
    and to the peer instance ([None] until [__init__] assigns it). *)
Record OneToOneMap : Type := mkMap {
  _forward : nat;
  _reverse : nat;
  _peer : option nat
}.

(** Dictionaries and instances live in the heap and are named by their
    position; an allocation appends. *)
Record heap : Type := mkHeap {
  dicts : list (gmap pyval pyval);
  objs : list OneToOneMap
}.

Definition empty_heap : heap := mkHeap [] [].

(** A call runs on a heap and leaves a heap, whether it returns or raises. *)
Definition M (A : Type) : Type := heap -> result exn A * heap.

Definition ret {A : Type} (a : A) : M A := fun h => (Ok a, h).

Definition raise {A : Type} (e : exn) : M A := fun h => (Raise e, h).

Definition bind {A B : Type} (m : M A) (k : A -> M B) : M B :=
  fun h =>
    match m h with
    | (Ok a, h') => k a h'
    | (Raise e, h') => (Raise e, h')
    end.

Declare Scope heap_scope.
Delimit Scope heap_scope with heap.
Notation "'let*' x := r 'in' k" := (bind r (fun x => k))
  (at level 10, x name, r at level 100, k at level 200) : heap_scope.
Open Scope heap_scope.

(** [{}] *)
Definition new_dict : M nat :=
  fun h => (Ok (length (dicts h)), mkHeap (dicts h ++ [∅]) (objs h)).

Definition read_dict (d : nat) : M (gmap pyval pyval) :=
  fun h =>
    match dicts h !! d with
    | Some m => (Ok m, h)
    | None => (Raise SystemError, h)
    end.

Definition write_dict (d : nat) (m : gmap pyval pyval) : M unit :=
  fun h => (Ok (), mkHeap (<[d := m]> (dicts h)) (objs h)).

(** [key in d] and [d[key]] in one: the value, if any. *)
Definition dict_get (d : nat) (key : pyval) : M (option pyval) :=
  let* m := read_dict d in ret (m !! key).

(** [d[key]] *)
Definition dict_getitem (d : nat) (key : pyval) : M pyval :=
  let* m := read_dict d in
  match m !! key with
  | Some v => ret v
  | None => raise (KeyError key None)
  end.

(** [d[key] = value] *)
Definition dict_setitem (d : nat) (key value : pyval) : M unit :=
  let* m := read_dict d in write_dict d (<[key := value]> m).

(** [del d[key]] *)
Definition dict_delitem (d : nat) (key : pyval) : M unit :=
  let* m := read_dict d in
  match m !! key with
  | Some _ => write_dict d (delete key m)
  | None => raise (KeyError key None)
  end.

(** [len(d)] *)
Definition dict_len (d : nat) : M nat :=
  let* m := read_dict d in ret (size m).

Definition new_obj (o : OneToOneMap) : M nat :=
  fun h => (Ok (length (objs h)), mkHeap (dicts h) (objs h ++ [o])).

Definition read_obj (self : nat) : M OneToOneMap :=
  fun h =>
    match objs h !! self with
    | Some o => (Ok o, h)
    | None => (Raise SystemError, h)
    end.

(** [self._peer = peer] *)
Definition set_peer (self peer : nat) : M unit :=
  let* o := read_obj self in
  fun h => (Ok (), mkHeap (dicts h)
                     (<[self := mkMap (_forward o) (_reverse o) (Some peer)]> (objs h))).

(** ** The class [OneToOneMap] *)

(** ['...' % arg] for a format string without conversion specifier, as in
    the two messages of [__setitem__]: the empty tuple leaves nothing
    unconverted and a [bytes] object is taken for a mapping; any other
    argument raises [TypeError] (not all arguments converted). *)
Definition percent_literal (arg : pyval) : M unit :=
  match arg with
  | PyEmptyTuple | PyBytes _ => ret ()
  | _ => raise TypeError
  end.

Definition reverse (self : nat) : M nat :=
  let* o := read_obj self in
  match _peer o with
  | Some p => ret p
  | None => raise AttributeError
  end.

Definition __len__ (self : nat) : M nat :=
  let* o := read_obj self in
  let* len_ := dict_len (_forward o) in
  let* rlen := dict_len (_reverse o) in
  if decide (rlen = len_) then ret len_ else raise AssertionError.

Definition __getitem__ (self : nat) (key : pyval) : M pyval :=
  let* o := read_obj self in dict_getitem (_forward o) key.

Definition __contains__ (self : nat) (item : pyval) : M bool :=
  let* o := read_obj self in
  let* v := dict_get (_forward o) item in
  ret (bool_decide (is_Some v)).

Definition __setitem__ (self : nat) (key value : pyval) : M unit :=
  let* o := read_obj self in
  let* owner := dict_get (_reverse o) value in
  let* _ :=
    match owner with
    | Some k =>
        if decide (k ≠ key) then
          let* _ := percent_literal key in raise (ValueError value k)
        else ret ()
    | None => ret ()
    end in
  let* held := dict_get (_forward o) key in
  let* _ :=
    match held with
    | Some v =>
        if decide (v ≠ value) then
          let* _ := percent_literal value in raise (KeyError key (Some v))
        else ret ()
    | None => ret ()
    end in
  let* _ := dict_setitem (_forward o) key value in
  dict_setitem (_reverse o) value key.

Definition __delitem__ (self : nat) (key : pyval) : M unit :=
  let* o := read_obj self in
  let* value := dict_getitem (_forward o) key in
  let* _ := dict_delitem (_reverse o) value in
  dict_delitem (_forward o) key.

(** The [mapping] argument of the constructor: absent, a mapping whose
    [items()] come in the given order, or an iterable of pairs. *)
Inductive init_arg : Type :=
| ArgNone
| ArgMapping (items : list (pyval * pyval))
| ArgIterable (items : list (pyval * pyval)).

(** The loop [for k, v in items: self[k] = v]. *)
Fixpoint set_items (self : nat) (items : list (pyval * pyval)) : M unit :=
  match items with
  | [] => ret ()
  | (k, v) :: rest => let* _ := __setitem__ self k v in set_items self rest
  end.

(** [OneToOneMap(_peer = peer)], the [else] branch of [__init__]. *)
Definition __init___peer (peer : nat) : M nat :=
  let* p := read_obj peer in
  new_obj (mkMap (_reverse p) (_forward p) (Some peer)).

(** The [items] the constructor derives from its argument. *)
Definition items_of (mapping : init_arg) : list (pyval * pyval) :=
  match mapping with
  | ArgNone => []
  | ArgMapping items => items
  | ArgIterable items => items
  end.

(** [OneToOneMap(mapping)], the branch of [__init__] without [_peer]. *)
Definition __init__ (mapping : init_arg) : M nat :=
  let* forward := new_dict in
  let* reverse_ := new_dict in
  let* self := new_obj (mkMap forward reverse_ None) in
  let items := items_of mapping in
  let* _ := set_items self items in
  let* peer := __init___peer self in
  let* _ := set_peer self peer in
  ret self.

(** Calls a client can make on either view of a map. *)
Inductive op : Type :=
| SetItem (on_reverse : bool) (key value : pyval)
| DelItem (on_reverse : bool) (key : pyval).

(** The view an operation addresses: [m] or [m.reverse()]. *)
Definition view (m : nat) (on_reverse : bool) : M nat :=
  if on_reverse then reverse m else ret m.

Definition apply_op (m : nat) (o : op) : M unit :=
  match o with
  | SetItem r k v => let* w := view m r in __setitem__ w k v
  | DelItem r k => let* w := view m r in __delitem__ w k
  end.

(** The heap after a sequence of calls, each of which may raise; the
    client goes on after an exception. *)
Fixpoint run (m : nat) (ops : list op) (h : heap) : heap :=
  match ops with
  | [] => h
  | o :: rest => run m rest (snd (apply_op m o h))
  end.

(** ** Invariants of a pair of views *)

(** The reverse store is the inverse of the forward store. *)
Definition inverse (f r : gmap pyval pyval) : Prop :=
  forall k v, f !! k = Some v <-> r !! v = Some k.

(** Instance [m] and its peer [p] are linked to each other and share two
    distinct dictionaries, [f] and [r], swapped between them. *)
Definition paired (h : heap) (m p : nat) (f r : gmap pyval pyval) : Prop :=
  exists o,
    objs h !! m = Some o /\ _peer o = Some p /\ p <> m /\
    objs h !! p = Some (mkMap (_reverse o) (_forward o) (Some m)) /\
    _forward o <> _reverse o /\
    dicts h !! _forward o = Some f /\ dicts h !! _reverse o = Some r.

Definition well_formed (h : heap) (m : nat) : Prop :=
  exists p f r, paired h m p f r /\ inverse f r.

(** The exception [__setitem__] raises on stores [f] and [r], if any. *)
Definition percent_ok (arg : pyval) : bool :=
  match arg with
  | PyEmptyTuple | PyBytes _ => true
  | _ => false
  end.

Definition key_conflict (f : gmap pyval pyval) (key value : pyval) : option exn :=
  match f !! key with
  | Some v =>
      if decide (v ≠ value)
      then Some (if percent_ok value then KeyError key (Some v) else TypeError)
      else None
  | None => None
  end.

Definition conflict (f r : gmap pyval pyval) (key value : pyval) : option exn :=
  match r !! value with
  | Some k =>
      if decide (k ≠ key)
      then Some (if percent_ok key then ValueError value k else TypeError)
      else key_conflict f key value
  | None => key_conflict f key value
  end.

(** The heap after the two writes of [__setitem__] or [__delitem__]. *)
Definition with_stores (h : heap) (o : OneToOneMap) (f r : gmap pyval pyval) : heap :=
  mkHeap (<[_reverse o := r]> (<[_forward o := f]> (dicts h))) (objs h).

(** ** Properties of the stores *)

Lemma inverse_sym (f r : gmap pyval pyval) : inverse f r -> inverse r f.
Proof. intros Hinv k v. symmetry. apply Hinv. Qed.

Lemma inverse_empty : inverse ∅ ∅.
Proof. intros k v. by rewrite !lookup_empty. Qed.

Lemma inverse_size (f r : gmap pyval pyval) : inverse f r -> size f = size r.
Proof.
  revert r. induction f as [|k v f Hk IH] using map_ind; intros r Hinv.
  - rewrite map_size_empty. symmetry. apply map_size_empty_iff.
    apply map_eq. intros v. rewrite lookup_empty.
    destruct (r !! v) as [k|] eqn:Hv; [|done].
    apply Hinv in Hv. by rewrite lookup_empty in Hv.
  - assert (r !! v = Some k) as Hv by (apply Hinv; apply lookup_insert_eq).
    rewrite map_size_insert_None by done.
    rewrite <- (insert_delete_id r v k Hv).
    rewrite map_size_insert_None by apply lookup_delete_eq.
    f_equal. apply IH. intros k' v'.
    destruct (decide (v' = v)) as [->|Hne].
    + rewrite lookup_delete_eq. split; [|done]. intros Hk'.
      assert (<[k:=v]> f !! k' = Some v) as Hins.
      { destruct (decide (k = k')) as [->|?]; [congruence|].
        by rewrite lookup_insert_ne. }
      apply Hinv in Hins. rewrite Hv in Hins. congruence.
    + rewrite lookup_delete_ne by done. rewrite <- (Hinv k' v').
      destruct (decide (k = k')) as [->|?].
      * rewrite lookup_insert_eq, Hk. split; [done|congruence].
      * by rewrite lookup_insert_ne.
Qed.

Lemma inverse_insert (f r : gmap pyval pyval) (key value : pyval) :
  inverse f r -> conflict f r key value = None ->
  inverse (<[key := value]> f) (<[value := key]> r).
Proof.
  intros Hinv Hc k v.
  assert (forall v', f !! key = Some v' -> v' = value) as Hf.
  { intros v' Hv'. unfold conflict, key_conflict in Hc. rewrite Hv' in Hc.
    destruct (r !! value); repeat destruct (decide _); try done;
      by apply dec_stable. }
  assert (forall k', r !! value = Some k' -> k' = key) as Hr.
  { intros k' Hk'. unfold conflict in Hc. rewrite Hk' in Hc.
    destruct (decide _); [done|]. by apply dec_stable. }
  destruct (decide (key = k)) as [<-|Hk], (decide (value = v)) as [<-|Hv];
    rewrite ?lookup_insert_eq, ?lookup_insert_ne by done.
  - done.
  - split; [congruence|]. intros Hv'. apply Hinv in Hv'.
    apply Hf in Hv'. congruence.
  - split; [|congruence]. intros Hk'. apply Hinv in Hk'.
    apply Hr in Hk'. congruence.
  - apply Hinv.
Qed.

Lemma inverse_delete (f r : gmap pyval pyval) (key value : pyval) :
  inverse f r -> f !! key = Some value ->
  inverse (delete key f) (delete value r).
Proof.
  intros Hinv Hkv k v.
  destruct (decide (key = k)) as [<-|Hk], (decide (value = v)) as [<-|Hv];
    rewrite ?lookup_delete_eq, ?lookup_delete_ne by done.
  - done.
  - split; [done|]. intros Hv'. apply Hinv in Hv'. congruence.
  - split; [|done]. intros Hk'. apply Hinv in Hk'.
    apply Hinv in Hkv. congruence.
  - apply Hinv.
Qed.

(** *** What the methods compute on a linked pair *)

Lemma bind_Ok {A B : Type} (m : M A) (k : A -> M B) (h h' : heap) (a : A) :
  m h = (Ok a, h') -> bind m k h = k a h'.
Proof. unfold bind. by intros ->. Qed.

Lemma bind_Raise {A B : Type} (m : M A) (k : A -> M B) (h h' : heap) (e : exn) :
  m h = (Raise e, h') -> bind m k h = (Raise e, h').
Proof. unfold bind. by intros ->. Qed.

Lemma read_obj_eq (h : heap) (self : nat) (o : OneToOneMap) :
  objs h !! self = Some o -> read_obj self h = (Ok o, h).
Proof. unfold read_obj. by intros ->. Qed.

Lemma read_dict_eq (h : heap) (d : nat) (m : gmap pyval pyval) :
  dicts h !! d = Some m -> read_dict d h = (Ok m, h).
Proof. unfold read_dict. by intros ->. Qed.

Lemma dict_get_eq (h : heap) (d : nat) (m : gmap pyval pyval) (key : pyval) :
  dicts h !! d = Some m -> dict_get d key h = (Ok (m !! key), h).
Proof. intros Hd. unfold dict_get. by rewrite (bind_Ok _ _ _ _ _ (read_dict_eq _ _ _ Hd)). Qed.

Lemma dict_len_eq (h : heap) (d : nat) (m : gmap pyval pyval) :
  dicts h !! d = Some m -> dict_len d h = (Ok (size m), h).
Proof. intros Hd. unfold dict_len. by rewrite (bind_Ok _ _ _ _ _ (read_dict_eq _ _ _ Hd)). Qed.

Lemma dict_getitem_eq (h : heap) (d : nat) (m : gmap pyval pyval) (key : pyval) :
  dicts h !! d = Some m ->
  dict_getitem d key h =
  match m !! key with
  | Some v => (Ok v, h)
  | None => (Raise (KeyError key None), h)
  end.
Proof.
  intros Hd. unfold dict_getitem.
  rewrite (bind_Ok _ _ _ _ _ (read_dict_eq _ _ _ Hd)). by destruct (m !! key).
Qed.

Lemma dict_setitem_eq (h : heap) (d : nat) (m : gmap pyval pyval) (key value : pyval) :
  dicts h !! d = Some m ->
  dict_setitem d key value h
  = (Ok (), mkHeap (<[d := <[key := value]> m]> (dicts h)) (objs h)).
Proof.
  intros Hd. unfold dict_setitem.
  by rewrite (bind_Ok _ _ _ _ _ (read_dict_eq _ _ _ Hd)).
Qed.

Lemma dict_delitem_eq (h : heap) (d : nat) (m : gmap pyval pyval) (key v : pyval) :
  dicts h !! d = Some m -> m !! key = Some v ->
  dict_delitem d key h
  = (Ok (), mkHeap (<[d := delete key m]> (dicts h)) (objs h)).
Proof.
  intros Hd Hk. unfold dict_delitem.
  rewrite (bind_Ok _ _ _ _ _ (read_dict_eq _ _ _ Hd)). by rewrite Hk.
Qed.

Section Stores.

Context (h : heap) (self : nat) (o : OneToOneMap) (f r : gmap pyval pyval).
Hypothesis Hobj : objs h !! self = Some o.
Hypothesis Hf : dicts h !! _forward o = Some f.
Hypothesis Hr : dicts h !! _reverse o = Some r.
Hypothesis Hne : _forward o <> _reverse o.

Lemma write_both (f' r' : gmap pyval pyval) (k1 v1 k2 v2 : pyval) :
  f' = <[k1 := v1]> f -> r' = <[k2 := v2]> r ->
  bind (dict_setitem (_forward o) k1 v1) (fun _ => dict_setitem (_reverse o) k2 v2) h
  = (Ok (), with_stores h o f' r').
Proof.
  intros -> ->.
  rewrite (bind_Ok _ _ _ _ _ (dict_setitem_eq _ _ _ _ _ Hf)).
  rewrite (dict_setitem_eq _ _ r); [done|]. simpl.
  rewrite list_lookup_insert_ne by done. exact Hr.
Qed.

Lemma __setitem___eq (key value : pyval) :
  __setitem__ self key value h =
  match conflict f r key value with
  | Some e => (Raise e, h)
  | None => (Ok (), with_stores h o (<[key := value]> f) (<[value := key]> r))
  end.
Proof.
  unfold __setitem__.
  rewrite (bind_Ok _ _ _ _ _ (read_obj_eq _ _ _ Hobj)).
  rewrite (bind_Ok _ _ _ _ _ (dict_get_eq _ _ _ value Hr)).
  assert (bind (dict_get (_forward o) key)
            (fun held =>
               bind match held with
                    | Some v =>
                        if decide (v ≠ value)
                        then bind (percent_literal value)
                               (fun _ => raise (KeyError key (Some v)))
                        else ret ()
                    | None => ret ()
                    end
                 (fun _ => bind (dict_setitem (_forward o) key value)
                             (fun _ => dict_setitem (_reverse o) value key))) h
          = match key_conflict f key value with
            | Some e => (Raise e, h)
            | None => (Ok (), with_stores h o (<[key := value]> f) (<[value := key]> r))
            end) as Hkey.
  { rewrite (bind_Ok _ _ _ _ _ (dict_get_eq _ _ _ key Hf)).
    unfold key_conflict. destruct (f !! key) as [v|].
    - destruct (decide (v ≠ value)).
      + by destruct value.
      + erewrite bind_Ok by reflexivity. by apply write_both.
    - erewrite bind_Ok by reflexivity. by apply write_both. }
  unfold conflict. destruct (r !! value) as [k|].
  - destruct (decide (k ≠ key)).
    + by destruct key.
    + erewrite bind_Ok by reflexivity. exact Hkey.
  - erewrite bind_Ok by reflexivity. exact Hkey.
Qed.

Lemma __delitem___eq (key : pyval) :
  inverse f r ->
  __delitem__ self key h =
  match f !! key with
  | Some value => (Ok (), with_stores h o (delete key f) (delete value r))
  | None => (Raise (KeyError key None), h)
  end.
Proof.
  intros Hinv. unfold __delitem__.
  rewrite (bind_Ok _ _ _ _ _ (read_obj_eq _ _ _ Hobj)).
  destruct (f !! key) as [value|] eqn:Hkv.
  - erewrite bind_Ok; [|by rewrite (dict_getitem_eq _ _ _ _ Hf), Hkv].
    erewrite bind_Ok; [|by apply (dict_delitem_eq _ _ r _ key), Hinv].
    erewrite (dict_delitem_eq _ _ f key value); [| |done]; simpl.
    + unfold with_stores. by rewrite list_insert_insert_ne.
    + by rewrite list_lookup_insert_ne.
  - erewrite bind_Raise; [done|]. by rewrite (dict_getitem_eq _ _ _ _ Hf), Hkv.
Qed.

Lemma __getitem___eq (key : pyval) :
  __getitem__ self key h =
  match f !! key with
  | Some v => (Ok v, h)
  | None => (Raise (KeyError key None), h)
  end.
Proof.
  unfold __getitem__.
  rewrite (bind_Ok _ _ _ _ _ (read_obj_eq _ _ _ Hobj)).
  by apply dict_getitem_eq.
Qed.

Lemma __len___eq :
  inverse f r -> __len__ self h = (Ok (size f), h).
Proof.
  intros Hinv. unfold __len__.
  rewrite (bind_Ok _ _ _ _ _ (read_obj_eq _ _ _ Hobj)).
  rewrite (bind_Ok _ _ _ _ _ (dict_len_eq _ _ _ Hf)).
  rewrite (bind_Ok _ _ _ _ _ (dict_len_eq _ _ _ Hr)).
  rewrite (inverse_size f r Hinv). by destruct (decide _).
Qed.

End Stores.

(** *** The link between the two views *)

Lemma paired_sym (h : heap) (m p : nat) (f r : gmap pyval pyval) :
  paired h m p f r -> paired h p m r f.
Proof.
  intros (o & Hm & Hp & Hne & Hpo & Hd & Hf & Hr).
  exists (mkMap (_reverse o) (_forward o) (Some m)). simpl.
  repeat split; try done; try congruence.
  destruct o as [fw rv pe]; simpl in *. by subst pe.
Qed.

Lemma paired_reverse (h : heap) (m p : nat) (f r : gmap pyval pyval) :
  paired h m p f r -> reverse m h = (Ok p, h).
Proof.
  intros (o & Hm & Hp & _). unfold reverse.
  rewrite (bind_Ok _ _ _ _ _ (read_obj_eq _ _ _ Hm)). by rewrite Hp.
Qed.

Lemma paired_with_stores (h : heap) (m p : nat) (f r f' r' : gmap pyval pyval)
    (o : OneToOneMap) :
  paired h m p f r -> objs h !! m = Some o ->
  paired (with_stores h o f' r') m p f' r'.
Proof.
  intros (o' & Hm & Hp & Hne & Hpo & Hd & Hf & Hr) Ho.
  assert (o' = o) as -> by congruence.
  exists o. unfold with_stores. simpl. repeat split; try done.
  - rewrite list_lookup_insert_ne by done.
    apply list_lookup_insert_eq. by eapply lookup_lt_Some.
  - apply list_lookup_insert_eq. rewrite length_insert. by eapply lookup_lt_Some.
Qed.

Lemma well_formed_peer (h : heap) (m p : nat) (f r : gmap pyval pyval) :
  paired h m p f r -> inverse f r -> well_formed h p.
Proof.
  intros Hp Hinv. exists m, r, f. split; [by apply paired_sym|by apply inverse_sym].
Qed.

(** *** [__setitem__] and [__delitem__] on a well-formed pair *)

(** A failed assignment leaves the heap as it was; a successful one leaves
    the pair linked, with [key -> value] and [value -> key] in the stores
    and every earlier entry of the forward store still there. *)
Lemma __setitem___paired (h : heap) (m p : nat) (f r : gmap pyval pyval)
    (key value : pyval) :
  paired h m p f r -> inverse f r ->
  match __setitem__ m key value h with
  | (Raise e, h') => h' = h /\ conflict f r key value = Some e
  | (Ok _, h') =>
      conflict f r key value = None /\
      paired h' m p (<[key := value]> f) (<[value := key]> r) /\
      inverse (<[key := value]> f) (<[value := key]> r) /\
      (forall k v, f !! k = Some v -> <[key := value]> f !! k = Some v)
  end.
Proof.
  intros Hp Hinv. pose proof Hp as (o & Hm & _ & _ & _ & Hd & Hf & Hr).
  rewrite (__setitem___eq h m o f r Hm Hf Hr Hd).
  destruct (conflict f r key value) as [e|] eqn:Hc; [done|].
  split; [done|]. split; [by eapply paired_with_stores|].
  split; [by apply inverse_insert|].
  intros k v Hkv. destruct (decide (key = k)) as [<-|?];
    [|by rewrite lookup_insert_ne].
  rewrite lookup_insert_eq. f_equal.
  unfold conflict, key_conflict in Hc. rewrite Hkv in Hc.
  destruct (r !! value); repeat destruct (decide _); try done;
    symmetry; by apply dec_stable.
Qed.

Lemma __delitem___paired (h : heap) (m p : nat) (f r : gmap pyval pyval)
    (key : pyval) :
  paired h m p f r -> inverse f r ->
  match __delitem__ m key h with
  | (Raise e, h') => h' = h /\ f !! key = None
  | (Ok _, h') =>
      exists value, f !! key = Some value /\
        paired h' m p (delete key f) (delete value r) /\
        inverse (delete key f) (delete value r)
  end.
Proof.
  intros Hp Hinv. pose proof Hp as (o & Hm & _ & _ & _ & Hd & Hf & Hr).
  rewrite (__delitem___eq h m o f r Hm Hf Hr Hd key Hinv).
  destruct (f !! key) as [value|] eqn:Hkv; [|done].
  exists value. split; [done|]. split; [by eapply paired_with_stores|].
  by apply inverse_delete.
Qed.

(** A call through either view keeps the pair linked and its stores
    inverse to each other. *)
Lemma apply_op_paired (h : heap) (m p : nat) (f r : gmap pyval pyval) (o : op) :
  paired h m p f r -> inverse f r ->
  exists f' r', paired (snd (apply_op m o h)) m p f' r' /\ inverse f' r'.
Proof.
  intros Hp Hinv.
  pose proof (paired_sym _ _ _ _ _ Hp) as Hq.
  pose proof (inverse_sym _ _ Hinv) as Hqinv.
  destruct o as [[] key value|[] key]; simpl; unfold view.
  - rewrite (bind_Ok _ _ _ _ _ (paired_reverse _ _ _ _ _ Hp)).
    pose proof (__setitem___paired h p m r f key value Hq Hqinv) as Hs.
    destruct (__setitem__ p key value h) as [[[]|e] h']; simpl.
    + destruct Hs as (_ & Hp' & Hinv' & _).
      eexists _, _. split; [apply paired_sym, Hp'|apply inverse_sym, Hinv'].
    + destruct Hs as [-> _]. eauto.
  - erewrite bind_Ok by reflexivity.
    pose proof (__setitem___paired h m p f r key value Hp Hinv) as Hs.
    destruct (__setitem__ m key value h) as [[[]|e] h']; simpl.
    + destruct Hs as (_ & Hp' & Hinv' & _). eauto.
    + destruct Hs as [-> _]. eauto.
  - rewrite (bind_Ok _ _ _ _ _ (paired_reverse _ _ _ _ _ Hp)).
    pose proof (__delitem___paired h p m r f key Hq Hqinv) as Hs.
    destruct (__delitem__ p key h) as [[[]|e] h']; simpl.
    + destruct Hs as (value & _ & Hp' & Hinv').
      eexists _, _. split; [apply paired_sym, Hp'|apply inverse_sym, Hinv'].
    + destruct Hs as [-> _]. eauto.
  - erewrite bind_Ok by reflexivity.
    pose proof (__delitem___paired h m p f r key Hp Hinv) as Hs.
    destruct (__delitem__ m key h) as [[[]|e] h']; simpl.
    + destruct Hs as (value & _ & Hp' & Hinv'). eauto.
    + destruct Hs as [-> _]. eauto.
Qed.

Lemma run_paired (ops : list op) (h : heap) (m p : nat) (f r : gmap pyval pyval) :
  paired h m p f r -> inverse f r ->
  exists f' r', paired (run m ops h) m p f' r' /\ inverse f' r'.
Proof.
  revert h f r. induction ops as [|o ops IH]; intros h f r Hp Hinv; simpl; [eauto|].
  destruct (apply_op_paired h m p f r o Hp Hinv) as (f1 & r1 & Hp1 & Hinv1).
  eauto.
Qed.

(** *** The constructor *)

Lemma set_items_paired (items : list (pyval * pyval)) (h : heap) (self : nat)
    (o : OneToOneMap) (f r : gmap pyval pyval) :
  objs h !! self = Some o ->
  dicts h !! _forward o = Some f -> dicts h !! _reverse o = Some r ->
  _forward o <> _reverse o -> inverse f r ->
  match set_items self items h with
  | (Ok _, h') =>
      exists f' r',
        objs h' = objs h /\ length (dicts h') = length (dicts h) /\
        dicts h' !! _forward o = Some f' /\ dicts h' !! _reverse o = Some r' /\
        inverse f' r' /\
        (forall k v, f !! k = Some v -> f' !! k = Some v) /\
        (forall k v, (k, v) ∈ items -> f' !! k = Some v)
  | (Raise _, _) => True
  end.
Proof.
  revert h f r. induction items as [|[k v] items IH]; intros h f r Hm Hf Hr Hd Hinv.
  - simpl. exists f, r. split_and!; try done. intros k' v' Hin.
    by apply elem_of_nil in Hin.
  - simpl. unfold bind at 1.
    rewrite (__setitem___eq h self o f r Hm Hf Hr Hd).
    destruct (conflict f r k v) as [e|] eqn:Hc; [done|].
    assert (dicts (with_stores h o (<[k:=v]> f) (<[v:=k]> r)) !! _forward o
            = Some (<[k:=v]> f)) as Hf1.
    { unfold with_stores. simpl. rewrite list_lookup_insert_ne by done.
      apply list_lookup_insert_eq. by eapply lookup_lt_Some. }
    assert (dicts (with_stores h o (<[k:=v]> f) (<[v:=k]> r)) !! _reverse o
            = Some (<[v:=k]> r)) as Hr1.
    { unfold with_stores. simpl. apply list_lookup_insert_eq.
      rewrite length_insert. by eapply lookup_lt_Some. }
    assert (forall k' v', f !! k' = Some v' -> <[k:=v]> f !! k' = Some v') as Hkeep.
    { intros k' v' Hkv. destruct (decide (k = k')) as [<-|?];
        [|by rewrite lookup_insert_ne].
      rewrite lookup_insert_eq. f_equal.
      unfold conflict, key_conflict in Hc. rewrite Hkv in Hc.
      destruct (r !! v); repeat destruct (decide _); try done;
        symmetry; by apply dec_stable. }
    specialize (IH (with_stores h o (<[k:=v]> f) (<[v:=k]> r))
                  (<[k:=v]> f) (<[v:=k]> r) Hm Hf1 Hr1 Hd
                  (inverse_insert f r k v Hinv Hc)).
    destruct (set_items self items _) as [[[]|e] h']; [|done].
    destruct IH as (f' & r' & Hobjs & Hlen & Hf' & Hr' & Hinv' & Hsub & Hall).
    exists f', r'. split_and!; try done.
    + rewrite Hlen. unfold with_stores. simpl. by rewrite !length_insert.
    + intros k' v' Hkv. by apply Hsub, Hkeep.
    + intros k' v' Hin. apply elem_of_cons in Hin as [[= -> ->]|Hin];
        [|by apply Hall].
      apply Hsub, lookup_insert_eq.
Qed.

Lemma __init___peer_eq (h : heap) (peer : nat) (p : OneToOneMap) :
  objs h !! peer = Some p ->
  __init___peer peer h
  = (Ok (length (objs h)),
     mkHeap (dicts h) (objs h ++ [mkMap (_reverse p) (_forward p) (Some peer)])).
Proof.
  intros Hp. unfold __init___peer.
  by rewrite (bind_Ok _ _ _ _ _ (read_obj_eq _ _ _ Hp)).
Qed.

Lemma set_peer_eq (h : heap) (self peer : nat) (o : OneToOneMap) :
  objs h !! self = Some o ->
  set_peer self peer h
  = (Ok (), mkHeap (dicts h)
              (<[self := mkMap (_forward o) (_reverse o) (Some peer)]> (objs h))).
Proof.
  intros Ho. unfold set_peer.
  by rewrite (bind_Ok _ _ _ _ _ (read_obj_eq _ _ _ Ho)).
Qed.

(** A constructor call that returns leaves a linked pair whose forward
    store holds every item of the argument. *)
Lemma __init___paired (mapping : init_arg) (h0 h : heap) (m : nat) :
  __init__ mapping h0 = (Ok m, h) ->
  exists p f r, paired h m p f r /\ inverse f r /\
    (forall k v, (k, v) ∈ items_of mapping -> f !! k = Some v).
Proof.
  unfold __init__, new_dict, new_obj. unfold bind at 1 2 3. simpl.
  set (d := length (dicts h0)).
  set (self := length (objs h0)).
  set (o := mkMap d (length (dicts h0 ++ [∅])) None).
  set (h1 := mkHeap ((dicts h0 ++ [∅]) ++ [∅]) (objs h0 ++ [o])).
  assert (length (dicts h0 ++ [∅]) = S d) as Hd1
    by (rewrite length_app; simpl; lia).
  assert (objs h1 !! self = Some o) as Hm
    by (simpl; apply list_lookup_middle; done).
  assert (dicts h1 !! _forward o = Some ∅) as Hf.
  { simpl. rewrite <- app_assoc. by apply list_lookup_middle. }
  assert (dicts h1 !! _reverse o = Some ∅) as Hr.
  { simpl. by apply list_lookup_middle. }
  assert (_forward o <> _reverse o) as Hne by (simpl; lia).
  pose proof (set_items_paired (items_of mapping) h1 self o ∅ ∅
                Hm Hf Hr Hne inverse_empty) as Hitems.
  unfold bind at 1.
  destruct (set_items self (items_of mapping) h1) as [[[]|e] h2]; [|done].
  destruct Hitems as (f & r & Hobjs & Hlen & Hf2 & Hr2 & Hinv & _ & Hall).
  assert (objs h2 !! self = Some o) as Hm2 by (by rewrite Hobjs).
  rewrite (bind_Ok _ _ _ _ _ (__init___peer_eq _ _ _ Hm2)).
  erewrite bind_Ok; [|apply (set_peer_eq _ _ _ o); simpl;
                      rewrite lookup_app_l by (by eapply lookup_lt_Some); done].
  unfold ret. simpl. intros [= <- <-].
  exists (length (objs h2)), f, r. split; [|done].
  exists (mkMap d (length (dicts h0 ++ [∅])) (Some (length (objs h2)))). simpl.
  assert (self < length (objs h2)) as Hlt by (by eapply lookup_lt_Some).
  repeat split; try done.
  - apply list_lookup_insert_eq. rewrite length_app. simpl. lia.
  - lia.
  - rewrite list_lookup_insert_ne by lia. by apply list_lookup_middle.
Qed.

(** *** Reading through a linked pair *)

Lemma paired___getitem__ (h : heap) (m p : nat) (f r : gmap pyval pyval)
    (k v : pyval) :
  paired h m p f r -> inverse f r -> f !! k = Some v ->
  __getitem__ m k h = (Ok v, h) /\ __getitem__ p v h = (Ok k, h).
Proof.
  intros Hp Hinv Hkv. pose proof (paired_sym _ _ _ _ _ Hp) as Hq.
  destruct Hp as (o & Hm & _ & _ & _ & Hd & Hf & Hr).
  destruct Hq as (o' & Hm' & _ & _ & _ & Hd' & Hf' & Hr').
  rewrite (__getitem___eq h m o f Hm Hf), Hkv.
  rewrite (__getitem___eq h p o' r Hm' Hf').
  apply Hinv in Hkv. by rewrite Hkv.
Qed.

Lemma paired___len__ (h : heap) (m p : nat) (f r : gmap pyval pyval) :
  paired h m p f r -> inverse f r ->
  __len__ m h = (Ok (size f), h) /\ __len__ p h = (Ok (size f), h).
Proof.
  intros Hp Hinv. pose proof (paired_sym _ _ _ _ _ Hp) as Hq.
  destruct Hp as (o & Hm & _ & _ & _ & Hd & Hf & Hr).
  destruct Hq as (o' & Hm' & _ & _ & _ & Hd' & Hf' & Hr').
  rewrite (__len___eq h m o f r Hm Hf Hr Hinv).
  rewrite (__len___eq h p o' r f Hm' Hf' Hr' (inverse_sym _ _ Hinv)).
  by rewrite (inverse_size f r Hinv).
Qed.

(** After [w[k] = v] has returned, [w[k]] is [v] and the peer maps [v]
    to [k]. *)
Lemma __setitem___then___getitem__ (h h' : heap) (w w' : nat)
    (f r : gmap pyval pyval) (k v : pyval) :
  paired h w w' f r -> inverse f r ->
  __setitem__ w k v h = (Ok (), h') ->
  __getitem__ w k h' = (Ok v, h') /\ __getitem__ w' v h' = (Ok k, h') /\
  reverse w h' = (Ok w', h').
Proof.
  intros Hp Hinv Hset.
  pose proof (__setitem___paired h w w' f r k v Hp Hinv) as Hs.
  rewrite Hset in Hs. destruct Hs as (_ & Hp' & Hinv' & _).
  destruct (paired___getitem__ h' w w' _ _ k v Hp' Hinv') as [Hg Hg'];
    [apply lookup_insert_eq|].
  split_and!; try done. by eapply paired_reverse.
Qed.

(** ** What [__setitem__] does on a conflict *)

(** Whatever the exception, a failed assignment changes neither store. *)
Lemma __setitem___failure (h h' : heap) (m : nat) (key value : pyval) (e : exn) :
  well_formed h m -> __setitem__ m key value h = (Raise e, h') -> h' = h.
Proof.
  intros (p & f & r & Hp & Hinv) Hset.
  pose proof (__setitem___paired h m p f r key value Hp Hinv) as Hs.
  rewrite Hset in Hs. by destruct Hs.
Qed.

(** Assigning a pair the map already holds returns and changes nothing. *)
Lemma __setitem___same_pair (h : heap) (m : nat) (key value : pyval) :
  well_formed h m -> __getitem__ m key h = (Ok value, h) ->
  __setitem__ m key value h = (Ok (), h).
Proof.
  intros (p & f & r & (o & Hm & _ & _ & _ & Hd & Hf & Hr) & Hinv).
  rewrite (__getitem___eq h m o f Hm Hf).
  destruct (f !! key) as [v|] eqn:Hkv; [|done]. intros [= ->].
  rewrite (__setitem___eq h m o f r Hm Hf Hr Hd).
  pose proof (proj1 (Hinv key value) Hkv) as Hvk.
  unfold conflict, key_conflict. rewrite Hvk, Hkv.
  destruct (decide (key ≠ key)); [done|]. destruct (decide (value ≠ value)); [done|].
  f_equal. unfold with_stores. rewrite !insert_id by done.
  rewrite (list_insert_id (dicts h) (_forward o) f Hf).
  rewrite (list_insert_id (dicts h) (_reverse o) r Hr).
  by destruct h.
Qed.

(** A value owned by another key: the message is built from [key] before
    the [ValueError] exists, so the call raises [ValueError] only for a key
    the [%] operator accepts, and [TypeError] for every other key. *)
Lemma __setitem___value_conflict (h : heap) (m p : nat) (f r : gmap pyval pyval)
    (key value owner : pyval) :
  paired h m p f r -> r !! value = Some owner -> owner <> key ->
  __setitem__ m key value h
  = (Raise (if percent_ok key then ValueError value owner else TypeError), h).
Proof.
  intros (o & Hm & _ & _ & _ & Hd & Hf & Hr) Hv Hne.
  rewrite (__setitem___eq h m o f r Hm Hf Hr Hd). unfold conflict.
  rewrite Hv. by destruct (decide _).
Qed.

(** A key owning another value (and a value that is free or owned by this
    key): likewise [KeyError] or [TypeError], by the value. *)
Lemma __setitem___key_conflict (h : heap) (m p : nat) (f r : gmap pyval pyval)
    (key value held : pyval) :
  paired h m p f r -> (r !! value = None \/ r !! value = Some key) ->
  f !! key = Some held -> held <> value ->
  __setitem__ m key value h
  = (Raise (if percent_ok value then KeyError key (Some held) else TypeError), h).
Proof.
  intros (o & Hm & _ & _ & _ & Hd & Hf & Hr) Hv Hk Hne.
  rewrite (__setitem___eq h m o f r Hm Hf Hr Hd). unfold conflict, key_conflict.
  rewrite Hk. destruct Hv as [->| ->].
  - by destruct (decide _).
  - destruct (decide (key ≠ key)); [done|]. by destruct (decide _).
Qed.

(** ** The claims about [OneToOneMap] *)

(** C9. For a map [m] the constructor returned, with peer [p]: every pair
    given to the constructor is read back as [m[k] == v] and [p[v] == k];
    and after any sequence of assignments and deletions through either
    view, [m.reverse()] is [p] and [p.reverse()] is [m], both calls leaving
    the heap as it is; [len(m)] and [len(p)] return the same number; and
    every assignment that returns, through [m] or through [p], is read back
    from both views. *)
Theorem bijection_invariants (mapping : init_arg) (h0 h : heap) (m : nat)
    (ops : list op) :
  __init__ mapping h0 = (Ok m, h) ->
  exists p,
    (forall k v, (k, v) ∈ items_of mapping ->
       __getitem__ m k h = (Ok v, h) /\ __getitem__ p v h = (Ok k, h)) /\
    let h' := run m ops h in
    reverse m h' = (Ok p, h') /\ reverse p h' = (Ok m, h') /\
    (exists n, __len__ m h' = (Ok n, h') /\ __len__ p h' = (Ok n, h')) /\
    (forall k v h'', __setitem__ m k v h' = (Ok (), h'') ->
       __getitem__ m k h'' = (Ok v, h'') /\ __getitem__ p v h'' = (Ok k, h'') /\
       reverse m h'' = (Ok p, h'')) /\
    (forall k v h'', __setitem__ p k v h' = (Ok (), h'') ->
       __getitem__ p k h'' = (Ok v, h'') /\ __getitem__ m v h'' = (Ok k, h'') /\
       reverse p h'' = (Ok m, h'')).
Proof.
  intros Hinit.
  apply __init___paired in Hinit as (p & f & r & Hp & Hinv & Hitems).
  exists p. split.
  - intros k v Hin. apply (paired___getitem__ h m p f r); auto.
  - destruct (run_paired ops h m p f r Hp Hinv) as (f' & r' & Hp' & Hinv').
    simpl. pose proof (paired_sym _ _ _ _ _ Hp') as Hq'.
    split_and!.
    + by eapply paired_reverse.
    + by eapply paired_reverse.
    + exists (size f'). by apply (paired___len__ _ m p f' r').
    + intros k v h''. by apply (__setitem___then___getitem__ _ _ m p f' r').
    + intros k v h''. apply (__setitem___then___getitem__ _ _ p m r' f'); [done|].
      by apply inverse_sym.
Qed.

(** C9, on [OneToOneMap([(0, 'False'), (1, 'True')])] followed by
    [m['two'] = 2], [del m.reverse()['True']] and the conflicting
    [m.reverse()['False'] = 5]. *)
Lemma bijection_invariants_witness :
  let arg := ArgIterable [(PyInt 0, PyStr "False"); (PyInt 1, PyStr "True")] in
  let ops := [SetItem false (PyStr "two") (PyInt 2);
              DelItem true (PyStr "True");
              SetItem true (PyStr "False") (PyInt 5)] in
  let h := snd (__init__ arg empty_heap) in
  exists p,
    (forall k v, (k, v) ∈ items_of arg ->
       __getitem__ 0 k h = (Ok v, h) /\ __getitem__ p v h = (Ok k, h)) /\
    let h' := run 0 ops h in
    reverse 0 h' = (Ok p, h') /\ reverse p h' = (Ok 0, h') /\
    (exists n, __len__ 0 h' = (Ok n, h') /\ __len__ p h' = (Ok n, h')) /\
    (forall k v h'', __setitem__ 0 k v h' = (Ok (), h'') ->
       __getitem__ 0 k h'' = (Ok v, h'') /\ __getitem__ p v h'' = (Ok k, h'') /\
       reverse 0 h'' = (Ok p, h'')) /\
    (forall k v h'', __setitem__ p k v h' = (Ok (), h'') ->
       __getitem__ p k h'' = (Ok v, h'') /\ __getitem__ 0 v h'' = (Ok k, h'') /\
       reverse p h'' = (Ok 0, h'')).
Proof.
  intros arg ops h.
  apply (bijection_invariants arg empty_heap h 0 ops).
  vm_compute. reflexivity.
Defined.

(** C2. On [m = OneToOneMap([('a', 1)])]: [m['b'] = 1], a value owned by
    another key, and [m['a'] = 2], a key owning another value, both raise
    [TypeError] and leave the heap as it was; with the empty tuple as the
    new key the first conflict raises the [ValueError]; [m['a'] = 1]
    returns and changes nothing. *)
Theorem setitem_conflict_raises_TypeError :
  let h := snd (__init__ (ArgIterable [(PyStr "a", PyInt 1)]) empty_heap) in
  __init__ (ArgIterable [(PyStr "a", PyInt 1)]) empty_heap = (Ok 0, h) /\
  __setitem__ 0 (PyStr "b") (PyInt 1) h = (Raise TypeError, h) /\
  __setitem__ 0 (PyStr "a") (PyInt 2) h = (Raise TypeError, h) /\
  __setitem__ 0 PyEmptyTuple (PyInt 1) h
  = (Raise (ValueError (PyInt 1) (PyStr "a")), h) /\
  __setitem__ 0 (PyStr "a") (PyInt 1) h = (Ok (), h).
Proof. vm_compute. repeat split. Qed.

(** ** Further properties of [OneToOneMap] *)

Lemma reached_paired (mapping : init_arg) (h0 h1 : heap) (m : nat) (ops : list op) :
  __init__ mapping h0 = (Ok m, h1) ->
  exists p f r, paired (run m ops h1) m p f r /\ inverse f r.
Proof.
  intros Hinit.
  apply __init___paired in Hinit as (p & f & r & Hp & Hinv & _).
  destruct (run_paired ops h1 m p f r Hp Hinv) as (f' & r' & Hp' & Hinv').
  by exists p, f', r'.
Qed.

Lemma paired___contains__ (h : heap) (m p : nat) (f r : gmap pyval pyval)
    (item : pyval) :
  paired h m p f r ->
  __contains__ m item h = (Ok (bool_decide (is_Some (f !! item))), h).
Proof.
  intros (o & Hm & _ & _ & _ & _ & Hf & _). unfold __contains__.
  rewrite (bind_Ok _ _ _ _ _ (read_obj_eq _ _ _ Hm)).
  by rewrite (bind_Ok _ _ _ _ _ (dict_get_eq _ _ _ item Hf)).
Qed.

Lemma paired___getitem___iff (h : heap) (m p : nat) (f r : gmap pyval pyval)
    (k v : pyval) :
  paired h m p f r ->
  __getitem__ m k h = (Ok v, h) <-> f !! k = Some v.
Proof.
  intros (o & Hm & _ & _ & _ & _ & Hf & _).
  rewrite (__getitem___eq h m o f Hm Hf).
  destruct (f !! k); split; congruence.
Qed.

Lemma conflict_None (f r : gmap pyval pyval) (key value : pyval) :
  conflict f r key value = None <->
  (r !! value = None \/ r !! value = Some key) /\
  (f !! key = None \/ f !! key = Some value).
Proof.
  unfold conflict, key_conflict.
  destruct (r !! value) as [k|], (f !! key) as [v|];
    repeat destruct (decide _); split; try done.
  all: try (intros [[?|?] [?|?]]; congruence).
  all: intros _; split; auto; right; f_equal; by apply dec_stable.
Qed.

(** Writing the stores through the peer is writing them through the map. *)
Lemma with_stores_peer (h : heap) (m p : nat) (f r f' r' : gmap pyval pyval)
    (o : OneToOneMap) :
  paired h m p f r -> objs h !! m = Some o ->
  with_stores h (mkMap (_reverse o) (_forward o) (Some m)) r' f'
  = with_stores h o f' r'.
Proof.
  intros (o' & Hm & _ & _ & _ & Hd & _) Ho.
  assert (o' = o) as -> by congruence.
  unfold with_stores. simpl. by rewrite list_insert_insert_ne.
Qed.

(** X15. In every state a map reaches, [m[k] == v] exactly when
    [m.reverse()[v] == k]; so no two keys of [m] share a value. *)
Theorem lookup_round_trip (mapping : init_arg) (h0 h1 : heap) (m : nat)
    (ops : list op) :
  __init__ mapping h0 = (Ok m, h1) ->
  let h := run m ops h1 in
  exists p, reverse m h = (Ok p, h) /\
    (forall k v, __getitem__ m k h = (Ok v, h) <-> __getitem__ p v h = (Ok k, h)) /\
    (forall k1 k2 v, __getitem__ m k1 h = (Ok v, h) ->
                     __getitem__ m k2 h = (Ok v, h) -> k1 = k2).
Proof.
  intros Hinit. simpl.
  destruct (reached_paired mapping h0 h1 m ops Hinit) as (p & f & r & Hp & Hinv).
  pose proof (paired_sym _ _ _ _ _ Hp) as Hq.
  exists p. split; [by eapply paired_reverse|]. split.
  - intros k v. rewrite (paired___getitem___iff _ m p f r k v Hp).
    rewrite (paired___getitem___iff _ p m r f v k Hq). apply Hinv.
  - intros k1 k2 v.
    rewrite !(paired___getitem___iff _ m p f r _ v Hp).
    intros H1 H2. apply Hinv in H1, H2. congruence.
Qed.

(** X16. Deleting a key the map holds returns; afterwards neither the key
    is in the map nor its value in the reverse view, both views are one
    entry shorter, and every other key reads as before. *)
Theorem __delitem___removes_pair (mapping : init_arg) (h0 h1 : heap) (m : nat)
    (ops : list op) (k v : pyval) :
  __init__ mapping h0 = (Ok m, h1) ->
  let h := run m ops h1 in
  __getitem__ m k h = (Ok v, h) ->
  exists p h' n,
    reverse m h' = (Ok p, h') /\
    __delitem__ m k h = (Ok (), h') /\
    __contains__ m k h' = (Ok false, h') /\
    __contains__ p v h' = (Ok false, h') /\
    __len__ m h = (Ok (S n), h) /\
    __len__ m h' = (Ok n, h') /\ __len__ p h' = (Ok n, h') /\
    (forall k', k' <> k ->
       fst (__getitem__ m k' h') = fst (__getitem__ m k' h)).
Proof.
  intros Hinit. simpl.
  destruct (reached_paired mapping h0 h1 m ops Hinit) as (p & f & r & Hp & Hinv).
  set (h := run m ops h1) in *. intros Hget.
  apply (paired___getitem___iff h m p f r k v Hp) in Hget.
  pose proof (__delitem___paired h m p f r k Hp Hinv) as Hdel.
  destruct (__delitem__ m k h) as [[[]|e] h'] eqn:Hd.
  2:{ destruct Hdel as [_ ?]. congruence. }
  destruct Hdel as (v' & Hv' & Hp' & Hinv').
  assert (v' = v) as -> by congruence.
  pose proof (paired_sym _ _ _ _ _ Hp') as Hq'.
  exists p, h', (size (delete k f)).
  split; [by eapply paired_reverse|]. split; [done|].
  rewrite (paired___contains__ h' m p _ _ k Hp'), lookup_delete_eq.
  rewrite (paired___contains__ h' p m _ _ v Hq'), lookup_delete_eq.
  split; [done|]. split; [done|].
  destruct (paired___len__ h m p f r Hp Hinv) as [-> _].
  destruct (paired___len__ h' m p _ _ Hp' Hinv') as [-> ->].
  split.
  - do 2 f_equal. rewrite map_size_delete, Hget. simpl.
    assert (size f <> 0); [|lia].
    intros Hz. apply map_size_empty_inv in Hz. by rewrite Hz in Hget.
  - split; [done|]. split; [done|]. intros k' Hne.
    destruct Hp as (o & Hm & _ & _ & _ & _ & Hf & _).
    destruct Hp' as (o' & Hm' & _ & _ & _ & _ & Hf' & _).
    rewrite (__getitem___eq h' m o' _ Hm' Hf'), (__getitem___eq h m o f Hm Hf).
    rewrite lookup_delete_ne by done. by destruct (f !! k').
Qed.

(** X17. Deleting a key the map does not hold raises the [KeyError] of
    the key and leaves the heap as it was. *)
Theorem __delitem___missing (mapping : init_arg) (h0 h1 : heap) (m : nat)
    (ops : list op) (k : pyval) :
  __init__ mapping h0 = (Ok m, h1) ->
  let h := run m ops h1 in
  __contains__ m k h = (Ok false, h) ->
  __delitem__ m k h = (Raise (KeyError k None), h) /\
  __getitem__ m k h = (Raise (KeyError k None), h).
Proof.
  intros Hinit. simpl.
  destruct (reached_paired mapping h0 h1 m ops Hinit) as (p & f & r & Hp & Hinv).
  set (h := run m ops h1) in *.
  rewrite (paired___contains__ h m p f r k Hp). intros [= Hk].
  apply bool_decide_eq_false in Hk.
  assert (f !! k = None) as Hnone.
  { destruct (f !! k) eqn:Hfk; [|done]. exfalso. apply Hk. eauto. }
  destruct Hp as (o & Hm & _ & _ & _ & Hd & Hf & Hr).
  rewrite (__delitem___eq h m o f r Hm Hf Hr Hd k Hinv), Hnone.
  by rewrite (__getitem___eq h m o f Hm Hf), Hnone.
Qed.

(** X18. Assigning a key that is not in the map a value that is not in
    the reverse view returns; afterwards both views are one entry longer
    and every other key reads as before. *)
Theorem __setitem___fresh (mapping : init_arg) (h0 h1 : heap) (m : nat)
    (ops : list op) (k v : pyval) :
  __init__ mapping h0 = (Ok m, h1) ->
  let h := run m ops h1 in
  forall p, reverse m h = (Ok p, h) ->
  __contains__ m k h = (Ok false, h) ->
  __contains__ p v h = (Ok false, h) ->
  exists h' n,
    __setitem__ m k v h = (Ok (), h') /\
    __len__ m h = (Ok n, h) /\
    __len__ m h' = (Ok (S n), h') /\ __len__ p h' = (Ok (S n), h') /\
    (forall k', k' <> k ->
       fst (__getitem__ m k' h') = fst (__getitem__ m k' h)).
Proof.
  intros Hinit. simpl.
  destruct (reached_paired mapping h0 h1 m ops Hinit) as (p' & f & r & Hp & Hinv).
  set (h := run m ops h1) in *. intros p Hrev.
  rewrite (paired_reverse h m p' f r Hp) in Hrev. injection Hrev as <-.
  pose proof (paired_sym _ _ _ _ _ Hp) as Hq.
  rewrite (paired___contains__ h m p' f r k Hp).
  rewrite (paired___contains__ h p' m r f v Hq).
  intros [= Hk] [= Hv].
  apply bool_decide_eq_false in Hk, Hv.
  assert (f !! k = None) as Hfk.
  { destruct (f !! k) eqn:Hfk; [|done]. exfalso. apply Hk. eauto. }
  assert (r !! v = None) as Hrv.
  { destruct (r !! v) eqn:Hrv; [|done]. exfalso. apply Hv. eauto. }
  pose proof (__setitem___paired h m p' f r k v Hp Hinv) as Hset.
  destruct (__setitem__ m k v h) as [[[]|e] h'] eqn:Hs.
  2:{ destruct Hset as [_ Hc].
      assert (conflict f r k v = None) as Hnone by (apply conflict_None; auto).
      congruence. }
  destruct Hset as (_ & Hp' & Hinv' & _).
  exists h', (size f). split; [done|].
  destruct (paired___len__ h m p' f r Hp Hinv) as [-> _].
  destruct (paired___len__ h' m p' _ _ Hp' Hinv') as [-> ->].
  rewrite map_size_insert_None by done.
  split; [done|]. split; [done|]. split; [done|]. intros k' Hne.
  destruct Hp as (o & Hm & _ & _ & _ & _ & Hf & _).
  destruct Hp' as (o' & Hm' & _ & _ & _ & _ & Hf' & _).
  rewrite (__getitem___eq h' m o' _ Hm' Hf'), (__getitem___eq h m o f Hm Hf).
  rewrite lookup_insert_ne by done. by destruct (f !! k').
Qed.


(** X19. An assignment through the reverse view, [m.reverse()[v] = k],
    returns exactly when [m[k] = v] returns, and leaves the same heap. *)
Theorem __setitem___through_reverse (mapping : init_arg) (h0 h1 : heap) (m : nat)
    (ops : list op) (k v : pyval) :
  __init__ mapping h0 = (Ok m, h1) ->
  let h := run m ops h1 in
  exists p, reverse m h = (Ok p, h) /\
    forall h', __setitem__ p v k h = (Ok (), h') <->
               __setitem__ m k v h = (Ok (), h').
Proof.
  intros Hinit. simpl.
  destruct (reached_paired mapping h0 h1 m ops Hinit) as (p & f & r & Hp & Hinv).
  set (h := run m ops h1) in *.
  exists p. split; [by eapply paired_reverse|]. intros h'.
  pose proof Hp as (o & Hm & Hpeer & Hpm & Hpo & Hd & Hf & Hr).
  rewrite (__setitem___eq h m o f r Hm Hf Hr Hd).
  rewrite (__setitem___eq h p (mkMap (_reverse o) (_forward o) (Some m)) r f
             Hpo Hr Hf (not_eq_sym Hd)).
  rewrite (with_stores_peer h m p f r _ _ o Hp Hm).
  destruct (conflict f r k v) as [e|] eqn:Hc,
           (conflict r f v k) as [e'|] eqn:Hc'; try done.
  - apply conflict_None in Hc'. destruct Hc' as [Hc1 Hc2].
    assert (conflict f r k v = None) as Hnone by (by apply conflict_None).
    congruence.
  - apply conflict_None in Hc. destruct Hc as [Hc1 Hc2].
    assert (conflict r f v k = None) as Hnone by (by apply conflict_None).
    congruence.
Qed.

(** X20. Assigning a new key a new value and deleting the key again
    restores the heap: both stores are as they were. *)
Theorem __setitem___then___delitem__ (mapping : init_arg) (h0 h1 : heap) (m : nat)
    (ops : list op) (k v : pyval) :
  __init__ mapping h0 = (Ok m, h1) ->
  let h := run m ops h1 in
  forall p, reverse m h = (Ok p, h) ->
  __contains__ m k h = (Ok false, h) ->
  __contains__ p v h = (Ok false, h) ->
  exists h', __setitem__ m k v h = (Ok (), h') /\
             __delitem__ m k h' = (Ok (), h).
Proof.
  intros Hinit. simpl.
  destruct (reached_paired mapping h0 h1 m ops Hinit) as (p' & f & r & Hp & Hinv).
  set (h := run m ops h1) in *. intros p Hrev.
  rewrite (paired_reverse h m p' f r Hp) in Hrev. injection Hrev as <-.
  pose proof (paired_sym _ _ _ _ _ Hp) as Hq.
  rewrite (paired___contains__ h m p' f r k Hp).
  rewrite (paired___contains__ h p' m r f v Hq).
  intros [= Hk] [= Hv].
  apply bool_decide_eq_false in Hk, Hv.
  assert (f !! k = None) as Hfk.
  { destruct (f !! k) eqn:Hfk; [|done]. exfalso. apply Hk. eauto. }
  assert (r !! v = None) as Hrv.
  { destruct (r !! v) eqn:Hrv; [|done]. exfalso. apply Hv. eauto. }
  assert (conflict f r k v = None) as Hc by (apply conflict_None; auto).
  pose proof Hp as (o & Hm & _ & _ & _ & Hd & Hf & Hr).
  rewrite (__setitem___eq h m o f r Hm Hf Hr Hd), Hc.
  eexists. split; [done|].
  pose proof (paired_with_stores h m p' f r (<[k:=v]> f) (<[v:=k]> r) o Hp Hm)
    as (o' & Hm' & _ & _ & _ & Hd' & Hf' & Hr').
  assert (o' = o) as -> by (simpl in Hm'; congruence).
  rewrite (__delitem___eq _ m o _ _ Hm' Hf' Hr' Hd' k (inverse_insert f r k v Hinv Hc)).
  rewrite lookup_insert_eq. f_equal.
  unfold with_stores. simpl.
  rewrite !delete_insert_id by done.
  rewrite (list_insert_insert_ne _ (_forward o) (_reverse o)) by done.
  rewrite list_insert_insert_eq, list_insert_insert_eq.
  rewrite (list_insert_id (dicts h) (_forward o) f Hf).
  rewrite (list_insert_id (dicts h) (_reverse o) r Hr).
  by destruct h.
Qed.

(** The items of a constructor call pair keys and values one to one. *)
Definition one_to_one (items : list (pyval * pyval)) : Prop :=
  forall k1 v1 k2 v2, (k1, v1) ∈ items -> (k2, v2) ∈ items ->
    (k1 = k2 <-> v1 = v2).

Lemma set_items_returns (items : list (pyval * pyval)) (h : heap) (self : nat)
    (o : OneToOneMap) (f r : gmap pyval pyval) :
  objs h !! self = Some o ->
  dicts h !! _forward o = Some f -> dicts h !! _reverse o = Some r ->
  _forward o <> _reverse o ->
  one_to_one items ->
  (forall k v, (k, v) ∈ items ->
     (forall k', r !! v = Some k' -> k' = k) /\
     (forall v', f !! k = Some v' -> v' = v)) ->
  exists h', set_items self items h = (Ok (), h').
Proof.
  revert h f r. induction items as [|[k v] items IH];
    intros h f r Hm Hf Hr Hd Hone Hfree; simpl; [by eexists|].
  destruct (Hfree k v ltac:(by left)) as [Hrv Hfk].
  assert (conflict f r k v = None) as Hc.
  { apply conflict_None. split.
    - destruct (r !! v) as [k'|] eqn:Hk'; [right|by left].
      by rewrite (Hrv k' eq_refl).
    - destruct (f !! k) as [v'|] eqn:Hv'; [right|by left].
      by rewrite (Hfk v' eq_refl). }
  unfold bind at 1. rewrite (__setitem___eq h self o f r Hm Hf Hr Hd), Hc.
  apply (IH _ (<[k:=v]> f) (<[v:=k]> r)); try done.
  - unfold with_stores. simpl. rewrite list_lookup_insert_ne by done.
    apply list_lookup_insert_eq. by eapply lookup_lt_Some.
  - unfold with_stores. simpl. apply list_lookup_insert_eq.
    rewrite length_insert. by eapply lookup_lt_Some.
  - intros k1 v1 k2 v2 H1 H2. apply Hone; by right.
  - intros k2 v2 Hin. split.
    + intros k'. destruct (decide (v = v2)) as [->|Hne].
      * rewrite lookup_insert_eq. intros [= <-].
        apply (Hone k v2 k2 v2); [by left|by right|done].
      * rewrite lookup_insert_ne by done.
        apply (Hfree k2 v2). by right.
    + intros v'. destruct (decide (k = k2)) as [->|Hne].
      * rewrite lookup_insert_eq. intros [= <-].
        apply (Hone k2 v k2 v2); [by left|by right|done].
      * rewrite lookup_insert_ne by done.
        apply (Hfree k2 v2). by right.
Qed.

(** X21. The constructor returns a map exactly when the items it is given
    pair keys and values one to one: two items with one key have one
    value, and two items with one value have one key. *)
Theorem __init___returns_iff (mapping : init_arg) (h0 : heap) :
  (exists m h, __init__ mapping h0 = (Ok m, h)) <-> one_to_one (items_of mapping).
Proof.
  split.
  - intros (m & h & Hinit).
    apply __init___paired in Hinit as (p & f & r & Hp & Hinv & Hitems).
    intros k1 v1 k2 v2 H1 H2. apply Hitems in H1, H2. split.
    + intros ->. congruence.
    + intros ->. apply Hinv in H1, H2. congruence.
  - intros Hone.
    unfold __init__, new_dict, new_obj. unfold bind at 1 2 3. simpl.
    set (self := length (objs h0)).
    set (o := mkMap (length (dicts h0)) (length (dicts h0 ++ [∅])) None).
    set (h1 := mkHeap ((dicts h0 ++ [∅]) ++ [∅]) (objs h0 ++ [o])).
    assert (length (dicts h0 ++ [∅]) = S (length (dicts h0))) as Hd1
      by (rewrite length_app; simpl; lia).
    assert (objs h1 !! self = Some o) as Hm
      by (simpl; apply list_lookup_middle; done).
    assert (dicts h1 !! _forward o = Some ∅) as Hf.
    { simpl. rewrite <- app_assoc. by apply list_lookup_middle. }
    assert (dicts h1 !! _reverse o = Some ∅) as Hr.
    { simpl. by apply list_lookup_middle. }
    assert (_forward o <> _reverse o) as Hne by (simpl; lia).
    destruct (set_items_returns (items_of mapping) h1 self o ∅ ∅
                Hm Hf Hr Hne Hone) as [h2 Hset].
    { intros k v _. split; intros ?; by rewrite lookup_empty. }
    pose proof (set_items_paired (items_of mapping) h1 self o ∅ ∅
                  Hm Hf Hr Hne inverse_empty) as Hitems.
    rewrite Hset in Hitems.
    destruct Hitems as (f & r & Hobjs & _).
    assert (objs h2 !! self = Some o) as Hm2 by (by rewrite Hobjs).
    rewrite (bind_Ok _ _ _ _ _ Hset).
    rewrite (bind_Ok _ _ _ _ _ (__init___peer_eq _ _ _ Hm2)).
    erewrite bind_Ok; [|apply (set_peer_eq _ _ _ o); simpl;
                        rewrite lookup_app_l by (by eapply lookup_lt_Some); done].
    unfold ret. by eexists _, _.
Qed.


(** *** Instances, on [OneToOneMap([(0, 'False'), (1, 'True')])] after
    [m['two'] = 2] *)

Definition bool_items : init_arg :=
  ArgIterable [(PyInt 0, PyStr "False"); (PyInt 1, PyStr "True")].

Definition bool_heap : heap := snd (__init__ bool_items empty_heap).

Definition bool_ops : list op := [SetItem false (PyStr "two") (PyInt 2)].

(** X15. *)
Lemma lookup_round_trip_witness :
  let h := run 0 bool_ops bool_heap in
  exists p, reverse 0 h = (Ok p, h) /\
    (forall k v, __getitem__ 0 k h = (Ok v, h) <-> __getitem__ p v h = (Ok k, h)) /\
    (forall k1 k2 v, __getitem__ 0 k1 h = (Ok v, h) ->
                     __getitem__ 0 k2 h = (Ok v, h) -> k1 = k2).
Proof.
  apply (lookup_round_trip bool_items empty_heap bool_heap 0 bool_ops).
  vm_compute. reflexivity.
Defined.

(** X16, for [del m[1]]. *)
Lemma __delitem___removes_pair_witness :
  let h := run 0 bool_ops bool_heap in
  exists p h' n,
    reverse 0 h' = (Ok p, h') /\
    __delitem__ 0 (PyInt 1) h = (Ok (), h') /\
    __contains__ 0 (PyInt 1) h' = (Ok false, h') /\
    __contains__ p (PyStr "True") h' = (Ok false, h') /\
    __len__ 0 h = (Ok (S n), h) /\
    __len__ 0 h' = (Ok n, h') /\ __len__ p h' = (Ok n, h') /\
    (forall k', k' <> PyInt 1 ->
       fst (__getitem__ 0 k' h') = fst (__getitem__ 0 k' h)).
Proof.
  apply (__delitem___removes_pair bool_items empty_heap bool_heap 0 bool_ops
           (PyInt 1) (PyStr "True")).
  - vm_compute. reflexivity.
  - vm_compute. reflexivity.
Defined.

(** X17, for [del m[7]]. *)
Lemma __delitem___missing_witness :
  let h := run 0 bool_ops bool_heap in
  __delitem__ 0 (PyInt 7) h = (Raise (KeyError (PyInt 7) None), h) /\
  __getitem__ 0 (PyInt 7) h = (Raise (KeyError (PyInt 7) None), h).
Proof.
  apply (__delitem___missing bool_items empty_heap bool_heap 0 bool_ops (PyInt 7)).
  - vm_compute. reflexivity.
  - vm_compute. reflexivity.
Defined.

(** X18, for [m[7] = 'seven']. *)
Lemma __setitem___fresh_witness :
  let h := run 0 bool_ops bool_heap in
  exists h' n,
    __setitem__ 0 (PyInt 7) (PyStr "seven") h = (Ok (), h') /\
    __len__ 0 h = (Ok n, h) /\
    __len__ 0 h' = (Ok (S n), h') /\ __len__ 1 h' = (Ok (S n), h') /\
    (forall k', k' <> PyInt 7 ->
       fst (__getitem__ 0 k' h') = fst (__getitem__ 0 k' h)).
Proof.
  apply (__setitem___fresh bool_items empty_heap bool_heap 0 bool_ops
           (PyInt 7) (PyStr "seven") eq_refl 1).
  - vm_compute. reflexivity.
  - vm_compute. reflexivity.
  - vm_compute. reflexivity.
Defined.

(** X19, for [m.reverse()['seven'] = 7] against [m[7] = 'seven']. *)
Lemma __setitem___through_reverse_witness :
  let h := run 0 bool_ops bool_heap in
  exists p, reverse 0 h = (Ok p, h) /\
    forall h', __setitem__ p (PyStr "seven") (PyInt 7) h = (Ok (), h') <->
               __setitem__ 0 (PyInt 7) (PyStr "seven") h = (Ok (), h').
Proof.
  apply (__setitem___through_reverse bool_items empty_heap bool_heap 0 bool_ops
           (PyInt 7) (PyStr "seven")).
  vm_compute. reflexivity.
Defined.

(** X20, for [m[7] = 'seven'] and then [del m[7]]. *)
Lemma __setitem___then___delitem___witness :
  let h := run 0 bool_ops bool_heap in
  exists h', __setitem__ 0 (PyInt 7) (PyStr "seven") h = (Ok (), h') /\
             __delitem__ 0 (PyInt 7) h' = (Ok (), h).
Proof.
  apply (__setitem___then___delitem__ bool_items empty_heap bool_heap 0 bool_ops
           (PyInt 7) (PyStr "seven") eq_refl 1).
  - vm_compute. reflexivity.
  - vm_compute. reflexivity.
  - vm_compute. reflexivity.
Defined.


End Mapping.

(** * mapping.py: the read-only wrapper *)
Module Immutable.

(** What an [ImmutableMap] can be asked to wrap: a plain dictionary, a
    [OneToOneMap], another [ImmutableMap], or an object that is not a
    mapping. Of these, the second and the third are [IReversibleMap]s. *)
Inductive mapping_ref : Type :=
| RDict (d : nat)
| ROneToOneMap (m : nat)
| RImmutableMap (w : nat)
| RObject.

(** The attributes of an [ImmutableMap]. *)
Record ImmutableMap : Type := mkWrapper {
  _mapping : mapping_ref;
  _reverse : option nat
}.

(** The heap of [OneToOneMap]s and dictionaries, and the wrappers. *)
Record heap : Type := mkHeap {
  maps : Mapping.heap;
  wrappers : list ImmutableMap
}.

(** An exception of the wrapped code, or the interpreter's
    [RecursionError] when wrappers nest deeper than the recursion limit. *)
Inductive exn : Type :=
| Py (e : Mapping.exn)
| RecursionError.

Definition M (A : Type) : Type := heap -> result exn A * heap.

Definition ret {A : Type} (a : A) : M A := fun h => (Ok a, h).

Definition raise {A : Type} (e : exn) : M A := fun h => (Raise e, h).

Definition bind {A B : Type} (m : M A) (k : A -> M B) : M B :=
  fun h =>
    match m h with
    | (Ok a, h') => k a h'
    | (Raise e, h') => (Raise e, h')
    end.

Declare Scope wrapper_scope.
Delimit Scope wrapper_scope with wrapper.
Notation "'let*' x := r 'in' k" := (bind r (fun x => k))
  (at level 10, x name, r at level 100, k at level 200) : wrapper_scope.
Open Scope wrapper_scope.

(** A call into the wrapped code. *)
Definition lift {A : Type} (c : Mapping.M A) : M A :=
  fun h =>
    match c (maps h) with
    | (Ok a, mh) => (Ok a, mkHeap mh (wrappers h))
    | (Raise e, mh) => (Raise (Py e), mkHeap mh (wrappers h))
    end.

Definition read (self : nat) : M ImmutableMap :=
  fun h =>
    match wrappers h !! self with
    | Some w => (Ok w, h)
    | None => (Raise (Py Mapping.SystemError), h)
    end.

(** [self.__dict__['_reverse'] = other] *)
Definition set_reverse (self other : nat) : M unit :=
  let* w := read self in
  fun h => (Ok (), mkHeap (maps h)
                     (<[self := mkWrapper (_mapping w) (Some other)]> (wrappers h))).

(** [ImmutableMap(mapping)] *)
Definition __init__ (mapping : mapping_ref) : M nat :=
  match mapping with
  | RObject => raise (Py Mapping.TypeError)
  | _ =>
      fun h => (Ok (length (wrappers h)),
                mkHeap (maps h) (wrappers h ++ [mkWrapper mapping None]))
  end.

(** The methods that forward to the wrapped mapping; [fuel] is the
    recursion limit, one level being used for each wrapper passed. *)
Fixpoint __getitem__ (fuel : nat) (self : nat) (key : Mapping.pyval)
  : M Mapping.pyval :=
  match fuel with
  | 0 => raise RecursionError
  | S fuel' =>
      let* w := read self in
      match _mapping w with
      | RDict d => lift (Mapping.dict_getitem d key)
      | ROneToOneMap m => lift (Mapping.__getitem__ m key)
      | RImmutableMap w' => __getitem__ fuel' w' key
      | RObject => raise (Py Mapping.TypeError)
      end
  end.

Fixpoint __contains__ (fuel : nat) (self : nat) (item : Mapping.pyval) : M bool :=
  match fuel with
  | 0 => raise RecursionError
  | S fuel' =>
      let* w := read self in
      match _mapping w with
      | RDict d =>
          let* v := lift (Mapping.dict_get d item) in ret (bool_decide (is_Some v))
      | ROneToOneMap m => lift (Mapping.__contains__ m item)
      | RImmutableMap w' => __contains__ fuel' w' item
      | RObject => raise (Py Mapping.TypeError)
      end
  end.

Fixpoint __len__ (fuel : nat) (self : nat) : M nat :=
  match fuel with
  | 0 => raise RecursionError
  | S fuel' =>
      let* w := read self in
      match _mapping w with
      | RDict d => lift (Mapping.dict_len d)
      | ROneToOneMap m => lift (Mapping.__len__ m)
      | RImmutableMap w' => __len__ fuel' w'
      | RObject => raise (Py Mapping.TypeError)
      end
  end.

(** [reverse]: the branch [if self._reverse is None] builds and links the
    wrapper of the reversed mapping; [return self._reverse] then reads the
    attribute, which that branch has set if it was not set before. *)
Fixpoint reverse (fuel : nat) (self : nat) : M nat :=
  match fuel with
  | 0 => raise RecursionError
  | S fuel' =>
      let* w := read self in
      let* _ :=
        match _reverse w with
        | Some _ => ret ()
        | None =>
            let* reversed :=
              match _mapping w with
              | ROneToOneMap m =>
                  let* p := lift (Mapping.reverse m) in ret (ROneToOneMap p)
              | RImmutableMap w' =>
                  let* r := reverse fuel' w' in ret (RImmutableMap r)
              | RDict _ | RObject => raise (Py Mapping.TypeError)
              end in
            let* new := __init__ reversed in
            let* _ := set_reverse self new in
            set_reverse new self
        end in
      let* w := read self in
      match _reverse w with
      | Some r => ret r
      | None => raise (Py Mapping.SystemError)
      end
  end.

(** ** Properties of the wrapper *)

(** A computation that leaves the heap as it found it. *)
Definition pure {A : Type} (c : M A) : Prop := forall h, snd (c h) = h.

(** A computation that leaves the wrapped maps as it found them and
    removes no wrapper. *)
Definition keeps_maps {A : Type} (c : M A) : Prop :=
  forall h, maps (snd (c h)) = maps h /\
            length (wrappers h) <= length (wrappers (snd (c h))).

Lemma pure_ret {A : Type} (a : A) : pure (ret a).
Proof. done. Qed.

Lemma pure_raise {A : Type} (e : exn) : pure (raise e : M A).
Proof. done. Qed.

Lemma pure_bind {A B : Type} (m : M A) (k : A -> M B) :
  pure m -> (forall a, pure (k a)) -> pure (bind m k).
Proof.
  intros Hm Hk h. unfold bind. specialize (Hm h).
  destruct (m h) as [[a|e] h1]; simpl in *; subst h1; [apply Hk|done].
Qed.

Lemma pure_read (self : nat) : pure (read self).
Proof. intros h. unfold read. by destruct (wrappers h !! self). Qed.

Lemma pure_lift {A : Type} (c : Mapping.M A) :
  (forall mh, snd (c mh) = mh) -> pure (lift c).
Proof.
  intros Hc h. unfold lift. specialize (Hc (maps h)).
  destruct (c (maps h)) as [[a|e] mh]; simpl in *; subst mh; by destruct h.
Qed.

Lemma pure_keeps_maps {A : Type} (c : M A) : pure c -> keeps_maps c.
Proof. intros Hc h. by rewrite Hc. Qed.

Lemma keeps_maps_bind {A B : Type} (m : M A) (k : A -> M B) :
  keeps_maps m -> (forall a, keeps_maps (k a)) -> keeps_maps (bind m k).
Proof.
  intros Hm Hk h. unfold bind. destruct (Hm h) as [Hm1 Hm2].
  destruct (m h) as [[a|e] h1]; simpl in *; [|done].
  destruct (Hk a h1) as [Hk1 Hk2]. split; [congruence|lia].
Qed.

(** The reading methods of [OneToOneMap] and of a dictionary leave the
    heap of maps as it is. *)
Lemma read_obj_pure (m : nat) (mh : Mapping.heap) :
  snd (Mapping.read_obj m mh) = mh.
Proof. unfold Mapping.read_obj. by destruct (Mapping.objs mh !! m). Qed.

Lemma read_dict_pure (d : nat) (mh : Mapping.heap) :
  snd (Mapping.read_dict d mh) = mh.
Proof. unfold Mapping.read_dict. by destruct (Mapping.dicts mh !! d). Qed.

Lemma map_bind_pure {A B : Type} (c : Mapping.M A) (k : A -> Mapping.M B)
    (mh : Mapping.heap) :
  (forall mh, snd (c mh) = mh) -> (forall a mh, snd (k a mh) = mh) ->
  snd (Mapping.bind c k mh) = mh.
Proof.
  intros Hc Hk. unfold Mapping.bind. specialize (Hc mh).
  destruct (c mh) as [[a|e] mh1]; simpl in *; subst mh1; [apply Hk|done].
Qed.

Lemma dict_get_pure (d : nat) (key : Mapping.pyval) (mh : Mapping.heap) :
  snd (Mapping.dict_get d key mh) = mh.
Proof.
  apply map_bind_pure; [apply read_dict_pure|done].
Qed.

Lemma dict_getitem_pure (d : nat) (key : Mapping.pyval) (mh : Mapping.heap) :
  snd (Mapping.dict_getitem d key mh) = mh.
Proof.
  apply map_bind_pure; [apply read_dict_pure|].
  intros m mh'. by destruct (m !! key).
Qed.

Lemma dict_len_pure (d : nat) (mh : Mapping.heap) :
  snd (Mapping.dict_len d mh) = mh.
Proof. apply map_bind_pure; [apply read_dict_pure|done]. Qed.

Lemma map___getitem___pure (m : nat) (key : Mapping.pyval) (mh : Mapping.heap) :
  snd (Mapping.__getitem__ m key mh) = mh.
Proof.
  apply map_bind_pure; [apply read_obj_pure|].
  intros o mh'. apply dict_getitem_pure.
Qed.

Lemma map___contains___pure (m : nat) (item : Mapping.pyval) (mh : Mapping.heap) :
  snd (Mapping.__contains__ m item mh) = mh.
Proof.
  apply map_bind_pure; [apply read_obj_pure|]. intros o mh'.
  apply map_bind_pure; [intros; apply dict_get_pure|done].
Qed.

Lemma map___len___pure (m : nat) (mh : Mapping.heap) :
  snd (Mapping.__len__ m mh) = mh.
Proof.
  apply map_bind_pure; [apply read_obj_pure|]. intros o mh'.
  apply map_bind_pure; [intros; apply dict_len_pure|]. intros n mh''.
  apply map_bind_pure; [intros; apply dict_len_pure|]. intros n' mh3.
  by destruct (decide _).
Qed.

Lemma map_reverse_pure (m : nat) (mh : Mapping.heap) :
  snd (Mapping.reverse m mh) = mh.
Proof.
  apply map_bind_pure; [apply read_obj_pure|].
  intros o mh'. by destruct (Mapping._peer o).
Qed.

Lemma __getitem___pure (fuel self : nat) (key : Mapping.pyval) :
  pure (__getitem__ fuel self key).
Proof.
  revert self. induction fuel as [|fuel IH]; intros self; simpl; [done|].
  apply pure_bind; [apply pure_read|]. intros w.
  destruct (_mapping w); [| |apply IH|done].
  - apply pure_lift. intros mh. apply dict_getitem_pure.
  - apply pure_lift. intros mh. apply map___getitem___pure.
Qed.

Lemma __contains___pure (fuel self : nat) (item : Mapping.pyval) :
  pure (__contains__ fuel self item).
Proof.
  revert self. induction fuel as [|fuel IH]; intros self; simpl; [done|].
  apply pure_bind; [apply pure_read|]. intros w.
  destruct (_mapping w); [| |apply IH|done].
  - apply pure_bind; [|done]. apply pure_lift. intros mh. apply dict_get_pure.
  - apply pure_lift. intros mh. apply map___contains___pure.
Qed.

Lemma __len___pure (fuel self : nat) : pure (__len__ fuel self).
Proof.
  revert self. induction fuel as [|fuel IH]; intros self; simpl; [done|].
  apply pure_bind; [apply pure_read|]. intros w.
  destruct (_mapping w); [| |apply IH|done].
  - apply pure_lift. intros mh. apply dict_len_pure.
  - apply pure_lift. intros mh. apply map___len___pure.
Qed.

Lemma keeps_maps_set_reverse (self other : nat) : keeps_maps (set_reverse self other).
Proof.
  apply keeps_maps_bind; [apply pure_keeps_maps, pure_read|].
  intros w h. simpl. by rewrite length_insert.
Qed.

Lemma keeps_maps___init__ (mapping : mapping_ref) : keeps_maps (__init__ mapping).
Proof.
  intros h. destruct mapping; simpl; try done.
  all: rewrite length_app; simpl; split; [done|lia].
Qed.

Lemma keeps_maps_reverse (fuel self : nat) : keeps_maps (reverse fuel self).
Proof.
  revert self. induction fuel as [|fuel IH]; intros self; simpl; [done|].
  apply keeps_maps_bind; [apply pure_keeps_maps, pure_read|]. intros w.
  apply keeps_maps_bind.
  - destruct (_reverse w); [done|].
    apply keeps_maps_bind.
    + destruct (_mapping w); try done.
      * apply keeps_maps_bind; [|done].
        apply pure_keeps_maps, pure_lift. intros mh. apply map_reverse_pure.
      * apply keeps_maps_bind; [apply IH|done].
    + intros reversed. apply keeps_maps_bind; [apply keeps_maps___init__|].
      intros new. apply keeps_maps_bind; [apply keeps_maps_set_reverse|].
      intros _. apply keeps_maps_set_reverse.
  - intros _. apply keeps_maps_bind; [apply pure_keeps_maps, pure_read|].
    intros w'. by destruct (_reverse w').
Qed.

(** X22. No method of the wrapper changes the wrapped mapping: reading
    through a wrapper ([w[key]], [key in w], [len(w)]) leaves the whole
    heap as it is, and [w.reverse()] leaves every dictionary and every
    [OneToOneMap] as it is and removes no wrapper, whatever the outcome. *)
Theorem wrapper_never_writes (fuel self : nat) (key : Mapping.pyval) (h : heap) :
  snd (__getitem__ fuel self key h) = h /\
  snd (__contains__ fuel self key h) = h /\
  snd (__len__ fuel self h) = h /\
  maps (snd (reverse fuel self h)) = maps h /\
  length (wrappers h) <= length (wrappers (snd (reverse fuel self h))).
Proof.
  split; [apply __getitem___pure|].
  split; [apply __contains___pure|].
  split; [apply __len___pure|].
  apply keeps_maps_reverse.
Qed.


Lemma bind_inv {A B : Type} (m : M A) (k : A -> M B) (h h' : heap) (b : B) :
  bind m k h = (Ok b, h') ->
  exists a h1, m h = (Ok a, h1) /\ k a h1 = (Ok b, h').
Proof.
  unfold bind. destruct (m h) as [[a|e] h1]; [eauto|discriminate].
Qed.

Lemma read_Some (self : nat) (w : ImmutableMap) (h : heap) :
  wrappers h !! self = Some w -> read self h = (Ok w, h).
Proof. unfold read. by intros ->. Qed.

Lemma __init___Ok (mapping : mapping_ref) (h h' : heap) (new : nat) :
  __init__ mapping h = (Ok new, h') ->
  new = length (wrappers h) /\
  h' = mkHeap (maps h) (wrappers h ++ [mkWrapper mapping None]).
Proof. destruct mapping; simpl; intros [= <- <-]; done. Qed.

Lemma set_reverse_Ok (self other : nat) (h h' : heap) :
  set_reverse self other h = (Ok (), h') ->
  exists w, wrappers h !! self = Some w /\
    h' = mkHeap (maps h)
           (<[self := mkWrapper (_mapping w) (Some other)]> (wrappers h)).
Proof.
  unfold set_reverse. intros Hset.
  apply bind_inv in Hset as (w & h1 & Hread & Hset).
  unfold read in Hread. destruct (wrappers h !! self) as [w0|]; [|discriminate].
  injection Hread as <- <-. injection Hset as <-. eauto.
Qed.

Lemma reverse_cached (fuel self other : nat) (w : ImmutableMap) (h : heap) :
  wrappers h !! self = Some w -> _reverse w = Some other ->
  reverse (S fuel) self h = (Ok other, h).
Proof.
  intros Hw Hr. simpl. unfold bind. rewrite (read_Some self w h Hw), Hr. simpl.
  by rewrite (read_Some self w h Hw), Hr.
Qed.

(** The heap [reverse] leaves when it has to build the reversed wrapper. *)
Lemma reverse_builds (fuel self : nat) (mapping : mapping_ref) (h h' : heap)
    (w' : nat) :
  wrappers h !! self = Some (mkWrapper mapping None) ->
  reverse (S fuel) self h = (Ok w', h') ->
  exists reversed ws,
    self < w' /\
    wrappers h' !! self = Some (mkWrapper (_mapping ws) (Some w')) /\
    wrappers h' !! w' = Some (mkWrapper reversed (Some self)) /\
    match mapping with
    | ROneToOneMap m =>
        exists p, Mapping.reverse m (maps h) = (Ok p, maps h) /\
                  reversed = ROneToOneMap p /\ maps h' = maps h /\
                  _mapping ws = mapping
    | RImmutableMap w0 => exists r, reversed = RImmutableMap r
    | _ => False
    end.
Proof.
  intros Hself Hrev. simpl in Hrev.
  apply bind_inv in Hrev as (wr & h0 & Hread & Hrev).
  rewrite (read_Some self _ h Hself) in Hread. injection Hread as <- <-.
  simpl in Hrev.
  apply bind_inv in Hrev as ([] & h4 & Hbranch & Hfinal).
  apply bind_inv in Hbranch as (reversed & h1 & Hrevc & Hbranch).
  apply bind_inv in Hbranch as (new & h2 & Hinit & Hbranch).
  apply bind_inv in Hbranch as ([] & h3 & Hset1 & Hset2).
  apply __init___Ok in Hinit as [-> ->].
  apply set_reverse_Ok in Hset1 as (ws & Hws & ->).
  apply set_reverse_Ok in Hset2 as (wn & Hwn & ->).
  simpl in *.
  assert (length (wrappers h) <= length (wrappers h1) /\
          match mapping with
          | ROneToOneMap m =>
              exists p, Mapping.reverse m (maps h) = (Ok p, maps h) /\
                        reversed = ROneToOneMap p /\ h1 = h
          | RImmutableMap w0 => exists r, reversed = RImmutableMap r
          | _ => False
          end) as [Hlen Hcase].
  { destruct mapping as [d|m|w0|]; try discriminate.
    - apply bind_inv in Hrevc as (p & hp & Hp & [= <- <-]).
      pose proof (map_reverse_pure m (maps h)) as Hpure.
      unfold lift in Hp.
      destruct (Mapping.reverse m (maps h)) as [[p'|e] mh] eqn:Hm; [|discriminate].
      simpl in Hpure. subst mh. injection Hp as <- <-.
      split; [done|]. exists p'. by destruct h.
    - apply bind_inv in Hrevc as (r & hr & Hr & [= <- <-]).
      destruct (keeps_maps_reverse fuel w0 h) as [_ Hle].
      rewrite Hr in Hle. simpl in Hle. split; [done|]. by exists r. }
  pose proof (lookup_lt_Some _ _ _ Hself) as Hlt.
  assert (self <> length (wrappers h1)) as Hne by lia.
  rewrite list_lookup_insert_ne in Hwn by done.
  rewrite lookup_app_r in Hwn by lia. rewrite Nat.sub_diag in Hwn.
  injection Hwn as <-. simpl in Hfinal.
  assert (wrappers h1 !! self = Some ws) as Hws1.
  { rewrite lookup_app_l in Hws by lia. done. }
  unfold bind, read in Hfinal. simpl in Hfinal.
  rewrite list_lookup_insert_ne in Hfinal by done.
  rewrite list_lookup_insert_eq in Hfinal
    by (rewrite length_app; simpl; lia).
  simpl in Hfinal. injection Hfinal as <- <-. simpl.
  exists reversed, ws. split; [lia|]. split; [|split].
  - rewrite list_lookup_insert_ne by done.
    apply list_lookup_insert_eq. rewrite length_app. simpl. lia.
  - apply list_lookup_insert_eq. rewrite length_insert, length_app. simpl. lia.
  - destruct mapping as [d|m|w0|]; try done.
    destruct Hcase as (p & Hp & -> & ->).
    exists p. split; [done|]. split; [done|]. split; [done|].
    rewrite Hself in Hws1. by injection Hws1 as <-.
Qed.

(** X23. When [reverse] is first called on a wrapper and returns, it
    returns a wrapper other than the one it was called on; from then on
    the two are each other's reverse, [w.reverse().reverse() is w], and
    those calls change nothing. *)
Theorem reverse_round_trip (fuel self : nat) (mapping : mapping_ref)
    (h h' : heap) (w' : nat) :
  wrappers h !! self = Some (mkWrapper mapping None) ->
  reverse (S fuel) self h = (Ok w', h') ->
  w' <> self /\
  forall fuel', reverse (S fuel') w' h' = (Ok self, h') /\
                reverse (S fuel') self h' = (Ok w', h').
Proof.
  intros Hself Hrev.
  destruct (reverse_builds fuel self mapping h h' w' Hself Hrev)
    as (reversed & ws & Hlt & Hs & Hw & _).
  split; [lia|]. intros fuel'. split.
  - by apply (reverse_cached fuel' w' self _ h' Hw).
  - by apply (reverse_cached fuel' self w' _ h' Hs).
Qed.

Lemma lift___getitem__ (h : heap) (m p : nat) (f r : gmap Mapping.pyval Mapping.pyval)
    (k : Mapping.pyval) :
  Mapping.paired (maps h) m p f r ->
  lift (Mapping.__getitem__ m k) h =
  match f !! k with
  | Some v => (Ok v, h)
  | None => (Raise (Py (Mapping.KeyError k None)), h)
  end.
Proof.
  intros (o & Hm & _ & _ & _ & _ & Hf & _). unfold lift.
  rewrite (Mapping.__getitem___eq (maps h) m o f Hm Hf).
  destruct (f !! k); by destruct h.
Qed.

(** X24. For a wrapper [w] of a [OneToOneMap] that is in a state it
    reaches, [w.reverse()] returns a wrapper [w'], and then [w[k] == v]
    exactly when [w'[v] == k]: the reverse of the wrapper reads the
    reverse view of the wrapped map. *)
Theorem wrapper_reads_reverse (arg : Mapping.init_arg) (mh0 mh1 : Mapping.heap)
    (m : nat) (ops : list Mapping.op) (ws : list ImmutableMap)
    (self fuel : nat) :
  Mapping.__init__ arg mh0 = (Ok m, mh1) ->
  let h := mkHeap (Mapping.run m ops mh1) ws in
  ws !! self = Some (mkWrapper (ROneToOneMap m) None) ->
  exists w' h',
    reverse (S fuel) self h = (Ok w', h') /\
    forall f1 f2 k v,
      __getitem__ (S f1) self k h' = (Ok v, h') <->
      __getitem__ (S f2) w' v h' = (Ok k, h').
Proof.
  intros Hinit h Hself.
  destruct (Mapping.reached_paired arg mh0 mh1 m ops Hinit)
    as (p & f & r & Hp & Hinv).
  pose proof (Mapping.paired_reverse _ _ _ _ _ Hp) as Hrevm.
  assert (exists w' h', reverse (S fuel) self h = (Ok w', h')) as (w' & h' & Hrev).
  { simpl. unfold bind at 1. rewrite (read_Some self _ h Hself). simpl.
    unfold bind, lift. simpl. rewrite Hrevm. simpl.
    unfold set_reverse, bind, read. simpl.
    pose proof (lookup_lt_Some _ _ _ Hself) as Hlt.
    rewrite lookup_app_l by done. rewrite Hself. simpl.
    rewrite list_lookup_insert_ne by lia.
    rewrite lookup_app_r by lia. rewrite Nat.sub_diag. simpl.
    rewrite list_lookup_insert_ne by lia.
    rewrite list_lookup_insert_eq by (rewrite length_app; simpl; lia).
    simpl. eauto. }
  exists w', h'. split; [done|].
  destruct (reverse_builds fuel self _ h h' w' Hself Hrev)
    as (reversed & ws' & Hlt & Hs & Hw & p' & Hp' & -> & Hmaps & Hmap).
  simpl in Hp', Hmaps. rewrite Hrevm in Hp'. injection Hp' as <-.
  intros f1 f2 k v. simpl. unfold bind.
  rewrite (read_Some self _ h' Hs), (read_Some w' _ h' Hw). simpl.
  rewrite Hmap. rewrite <- Hmaps in Hp.
  pose proof (Mapping.paired_sym _ _ _ _ _ Hp) as Hq.
  rewrite (lift___getitem__ h' m p f r k Hp), (lift___getitem__ h' p m r f v Hq).
  destruct (f !! k) as [v0|] eqn:Hfk, (r !! v) as [k0|] eqn:Hrv.
  - split; intros [= ->]; [apply Hinv in Hfk|apply Hinv in Hrv]; congruence.
  - split; [|done]. intros [= ->]. apply Hinv in Hfk. congruence.
  - split; [done|]. intros [= ->]. apply Hinv in Hrv. congruence.
  - done.
Qed.


(** *** Instances, on a wrapper of [OneToOneMap([(0, 'False'), (1, 'True')])] *)

Definition wrapped_heap : heap :=
  mkHeap Mapping.bool_heap [mkWrapper (ROneToOneMap 0) None].

(** A wrapper of a plain dictionary is not reversible, and an object that
    is no mapping is not wrapped. *)
Example reverse_of_dict_wrapper :
  let h := mkHeap Mapping.bool_heap [mkWrapper (RDict 0) None] in
  reverse 3 0 h = (Raise (Py Mapping.TypeError), h) /\
  __init__ RObject h = (Raise (Py Mapping.TypeError), h).
Proof. vm_compute. split; reflexivity. Qed.

(** X23. *)
Lemma reverse_round_trip_witness :
  let h' := snd (reverse 1 0 wrapped_heap) in
  1 <> 0 /\
  forall fuel', reverse (S fuel') 1 h' = (Ok 0, h') /\
                reverse (S fuel') 0 h' = (Ok 1, h').
Proof.
  apply (reverse_round_trip 0 0 (ROneToOneMap 0) wrapped_heap
           (snd (reverse 1 0 wrapped_heap)) 1).
  - reflexivity.
  - vm_compute. reflexivity.
Defined.

(** X24. *)
Lemma wrapper_reads_reverse_witness :
  let h := mkHeap (Mapping.run 0 Mapping.bool_ops Mapping.bool_heap)
             [mkWrapper (ROneToOneMap 0) None] in
  exists w' h',
    reverse 1 0 h = (Ok w', h') /\
    forall f1 f2 k v,
      __getitem__ (S f1) 0 k h' = (Ok v, h') <->
      __getitem__ (S f2) w' v h' = (Ok k, h').
Proof.
  apply (wrapper_reads_reverse Mapping.bool_items Mapping.empty_heap
           Mapping.bool_heap 0 Mapping.bool_ops
           [mkWrapper (ROneToOneMap 0) None] 0 0).
  - reflexivity.
  - reflexivity.
Defined.


End Immutable.
